(** * The matching core of retro-builder/muos-build.py

    A shallow embedding of the name normaliser, the system classifier, the
    candidate index and the match engine of [MuOSOrganizer], followed by the
    properties of the specification checked against them.

    Modelling conventions.
    - A Python [str] is a [list ascii].  The model is of ASCII text:
      [str.upper], [str.lower] and whitespace are the ASCII ones, and the
      characters 128..255 are inert letters.
    - A [pathlib.Path] is a POSIX pure path: a root (empty, or made of
      slashes) and the list of its components.
    - A Python [dict] is a [gmap], a Python [set] a [gset].
    - Scores are rationals.  The program computes them as floats, but every
      score is one of the literals 0, 0.7, 0.8, 1.0 or a quotient of two word
      counts, and on those the comparisons of the program agree with the
      comparisons of the exact quotients.
    - Exceptions are the left summand of a sum type. *)

From Stdlib Require Import Ascii String List QArith Lia.
From stdpp Require Import base decidable option list gmap strings.
Import ListNotations.

Local Open Scope nat_scope.

(** ** Strings *)

Module Str.

Definition str := list ascii.

(** A string literal of the program. *)
Definition lit (s : string) : str := list_ascii_of_string s.

Definition newline : ascii := "010"%char.

Definition is_upper (c : ascii) : bool :=
  (65 <=? nat_of_ascii c) && (nat_of_ascii c <=? 90).

Definition is_lower (c : ascii) : bool :=
  (97 <=? nat_of_ascii c) && (nat_of_ascii c <=? 122).

Definition upper_char (c : ascii) : ascii :=
  if is_lower c then ascii_of_nat (nat_of_ascii c - 32) else c.

Definition lower_char (c : ascii) : ascii :=
  if is_upper c then ascii_of_nat (nat_of_ascii c + 32) else c.

(** [s.upper()] and [s.lower()]. *)
Definition upper (s : str) : str := map upper_char s.
Definition lower (s : str) : str := map lower_char s.

(** The characters [str.split()] and [str.strip()] treat as blank:
    tab, line feed, vertical tab, form feed, carriage return, the four
    separators 28..31 and the space. *)
Definition is_space (c : ascii) : bool :=
  let n := nat_of_ascii c in
  ((9 <=? n) && (n <=? 13)) || ((28 <=? n) && (n <=? 32)).

Definition eqc (a b : ascii) : bool := bool_decide (a = b).

(** [s.startswith(p)]. *)
Fixpoint starts_with (p s : str) : bool :=
  match p, s with
  | [], _ => true
  | _ :: _, [] => false
  | a :: p', b :: s' => eqc a b && starts_with p' s'
  end.

(** [sub in s] for two strings. *)
Fixpoint contains (s sub : str) : bool :=
  starts_with sub s ||
  match s with
  | [] => false
  | _ :: s' => contains s' sub
  end.

(** [sep.join(ws)]. *)
Fixpoint join (sep : str) (ws : list str) : str :=
  match ws with
  | [] => []
  | [w] => w
  | w :: ws' => w ++ sep ++ join sep ws'
  end.

(** Cut a string at every character satisfying [p]; the pieces between two
    cuts are kept even when empty. *)
Fixpoint split_by (p : ascii -> bool) (s : str) : list str :=
  match s with
  | [] => [[]]
  | c :: r =>
      if p c then [] :: split_by p r
      else match split_by p r with
           | w :: ws => (c :: w) :: ws
           | [] => [[c]]
           end
  end.

(** [s.split(sep)] for a one-character separator. *)
Definition split_on (sep : ascii) (s : str) : list str := split_by (eqc sep) s.

Definition nonempty (w : str) : bool :=
  match w with [] => false | _ :: _ => true end.

(** [s.split()]: the maximal runs of characters that are not blank. *)
Definition split_ws (s : str) : list str :=
  List.filter nonempty (split_by is_space s).

Fixpoint lstrip (s : str) : str :=
  match s with
  | [] => []
  | c :: r => if is_space c then lstrip r else s
  end.

(** [s.strip()]. *)
Definition strip (s : str) : str := rev (lstrip (rev (lstrip s))).

(** [s.replace(c, r)] for a one-character pattern [c]. *)
Definition replace (c : ascii) (r : str) (s : str) : str :=
  flat_map (fun x => if eqc x c then r else [x]) s.

(** [s.rfind(c)]: the index of the last occurrence of [c]. *)
Fixpoint rfind (c : ascii) (s : str) : option nat :=
  match s with
  | [] => None
  | x :: r =>
      match rfind c r with
      | Some i => Some (S i)
      | None => if eqc x c then Some 0 else None
      end
  end.

(** [s.rsplit(sep, 1)] when [sep] occurs in [s]: the part before the last
    occurrence and the part after it. *)
Definition rsplit1 (sep : ascii) (s : str) : option (str * str) :=
  match rfind sep s with
  | Some i => Some (firstn i s, skipn (S i) s)
  | None => None
  end.

(** [x in l] for a list or a tuple of strings. *)
Definition mem (x : str) (l : list str) : bool := bool_decide (x ∈ l).

Definition eqs (a b : str) : bool := bool_decide (a = b).

End Str.
Import Str.

(** ** Paths *)

Module Path.

(** A pure POSIX path.  [root] is [""] for a relative path and ["/"] (or
    ["//"]) for an absolute one; [segs] are the components after it. *)
Record t := mk { root : str; segs : list str }.

#[global] Instance eq_dec : EqDecision t.
Proof. solve_decision. Defined.

(** What [pathlib] guarantees of every path it builds: the root is made of
    slashes, and a component is not empty and holds no slash. *)
Definition wf (p : t) : Prop :=
  Forall (fun c => c = "/"%char) (root p) /\
  Forall (fun s => s <> [] /\ ~ In "/"%char s) (segs p).

(** [p.parts]. *)
Definition parts (p : t) : list str :=
  match root p with
  | [] => segs p
  | _ :: _ => root p :: segs p
  end.

(** [str(p)]. *)
Definition to_str (p : t) : str :=
  match root p, segs p with
  | [], [] => lit "."
  | _, _ => root p ++ join (lit "/") (segs p)
  end.

(** [p.name]: the last component, or [""]. *)
Definition name (p : t) : str := List.last (segs p) [].

(** The index at which [p.suffix] starts: the last dot of the name, when it
    is neither the first nor the last character. *)
Definition suffix_index (p : t) : option nat :=
  match rfind "."%char (name p) with
  | Some i => if (0 <? i) && (i <? length (name p) - 1) then Some i else None
  | None => None
  end.

(** [p.suffix]. *)
Definition suffix (p : t) : str :=
  match suffix_index p with
  | Some i => skipn i (name p)
  | None => []
  end.

(** [p.stem]. *)
Definition stem (p : t) : str :=
  match suffix_index p with
  | Some i => firstn i (name p)
  | None => name p
  end.

(** [p.parent]. *)
Definition parent (p : t) : t :=
  mk (root p) (removelast (segs p)).

(** [Path(s)] for a string: consecutive slashes collapse, a component ["."]
    is dropped, and leading slashes make the path absolute (exactly two of
    them are kept as the root ["//"]). *)
Definition keep_part (w : str) : bool := nonempty w && negb (eqs w (lit ".")).

Definition root_of (s : str) : str :=
  if starts_with (lit "//") s && negb (starts_with (lit "///") s) then lit "//"
  else if starts_with (lit "/") s then lit "/"
  else [].

Definition of_str (s : str) : t :=
  mk (root_of s) (List.filter keep_part (split_on "/"%char s)).

#[global] Instance countable : Countable t.
Proof.
  refine (inj_countable' (fun p => (root p, segs p))
            (fun rs => mk (fst rs) (snd rs)) _).
  intros []; reflexivity.
Defined.

(** [p / s] for a string [s]: an absolute [s] replaces [p]. *)
Definition div (p : t) (s : str) : t :=
  let q := of_str s in
  match root q with
  | [] => mk (root p) (segs p ++ segs q)
  | _ :: _ => q
  end.

End Path.

(** ** The system tables *)

(** [SYSTEM_TO_MUOS_FOLDER]. *)
Definition SYSTEM_TO_MUOS_FOLDER : gmap str str :=
  list_to_map
    [ (lit "Nintendo 64", lit "N64");
      (lit "N64", lit "N64");
      (lit "PlayStation", lit "PS");
      (lit "PS1", lit "PS");
      (lit "PSX", lit "PS");
      (lit "Dreamcast", lit "DC");
      (lit "Arcade", lit "ARCADE");
      (lit "MAME", lit "ARCADE");
      (lit "FBA", lit "ARCADE");
      (lit "Game Boy", lit "GB");
      (lit "Game Boy Color", lit "GBC");
      (lit "Game Boy Advance", lit "GBA");
      (lit "GBA", lit "GBA");
      (lit "NES", lit "FC");
      (lit "Nintendo Entertainment System", lit "FC");
      (lit "SNES", lit "SFC");
      (lit "Super Nintendo", lit "SFC");
      (lit "Genesis", lit "MD");
      (lit "Mega Drive", lit "MD");
      (lit "Sega Genesis", lit "MD");
      (lit "Neo Geo", lit "NEOGEO");
      (lit "Atari 2600", lit "ATARI");
      (lit "TurboGrafx-16", lit "PCE");
      (lit "PC Engine", lit "PCE");
      (lit "Master System", lit "MS");
      (lit "Sega Master System", lit "MS");
      (lit "Game Gear", lit "GG");
      (lit "Neo Geo Pocket", lit "NGP");
      (lit "WonderSwan", lit "WS");
      (lit "PlayStation Portable", lit "PSP") ].

(** [SYSTEM_TO_MUOS_FOLDER.get(system, system)]: the canonical tag of a raw
    platform label. *)
Definition muos_folder (system : str) : str :=
  default system (SYSTEM_TO_MUOS_FOLDER !! system).

(** ** The system classifier *)

(** [MuOSOrganizer.is_rom_file]. *)
Definition rom_extensions : list str :=
  [ lit ".zip"; lit ".7z"; lit ".rar";
    lit ".nes"; lit ".sfc"; lit ".smc"; lit ".gb"; lit ".gbc"; lit ".gba";
    lit ".md"; lit ".smd"; lit ".gen"; lit ".sms"; lit ".gg";
    lit ".pce"; lit ".iso"; lit ".cue"; lit ".bin"; lit ".chd";
    lit ".n64"; lit ".z64"; lit ".v64"; lit ".ndd";
    lit ".cdi"; lit ".gdi";
    lit ".pbp"; lit ".cso";
    lit ".img"; lit ".ccd"; lit ".mdf"; lit ".nrg";
    lit ".rom"; lit ".32x"; lit ".sg" ].

Definition is_rom_file (file_path : Path.t) : bool :=
  if starts_with (lit "bios") (Path.name file_path)
     || eqs (Path.name file_path) (lit "PSXONPSP660.bin")
  then false
  else mem (lower (Path.suffix file_path)) rom_extensions.

(** [MuOSOrganizer.detect_system_from_path]. *)
Definition detect_system_from_path (rom_path : Path.t) : str :=
  let path_str := upper (Path.to_str rom_path) in
  let path_parts := map upper (Path.parts rom_path) in
  if mem (lit "ARCADE") path_parts then lit "ARCADE"
  else if mem (lit "N64") path_parts || mem (lit "NINTENDO64") path_parts
  then lit "N64"
  else if mem (lit "PS") path_parts || mem (lit "PS1") path_parts
          || mem (lit "PSX") path_parts || mem (lit "PLAYSTATION") path_parts
  then lit "PS"
  else if mem (lit "DC") path_parts || mem (lit "DREAMCAST") path_parts
  then lit "DC"
  else if mem (lit "GBA") path_parts then lit "GBA"
  else if mem (lit "GBC") path_parts then lit "GBC"
  else if mem (lit "GB") path_parts && negb (mem (lit "GBA") path_parts)
          && negb (mem (lit "GBC") path_parts)
  then lit "GB"
  else if mem (lit "FC") path_parts || mem (lit "NES") path_parts
  then lit "FC"
  else if mem (lit "SFC") path_parts || mem (lit "SNES") path_parts
  then lit "SFC"
  else if mem (lit "MD") path_parts || mem (lit "GENESIS") path_parts
          || mem (lit "MEGADRIVE") path_parts
  then lit "MD"
  else if mem (lit "NEOGEO") path_parts then lit "NEOGEO"
  else if mem (lit "ATARI") path_parts then lit "ATARI"
  else if mem (lit "PCE") path_parts || mem (lit "PCENGINE") path_parts
          || mem (lit "TURBOGRAFX") path_parts
  then lit "PCE"
  else if mem (lit "MS") path_parts then lit "MS"
  else if mem (lit "GG") path_parts then lit "GG"
  else
    let ext := lower (Path.suffix rom_path) in
    if mem ext [lit ".n64"; lit ".z64"; lit ".v64"] then lit "N64"
    else if eqs ext (lit ".nes") then lit "FC"
    else if mem ext [lit ".sfc"; lit ".smc"] then lit "SFC"
    else if eqs ext (lit ".gb") then lit "GB"
    else if eqs ext (lit ".gbc") then lit "GBC"
    else if eqs ext (lit ".gba") then lit "GBA"
    else if mem ext [lit ".md"; lit ".smd"; lit ".gen"] then lit "MD"
    else if mem ext [lit ".sms"] then lit "MS"
    else if eqs ext (lit ".gg") then lit "GG"
    else if eqs ext (lit ".pce") then lit "PCE"
    else if mem ext [lit ".chd"; lit ".iso"; lit ".cue"; lit ".bin"]
            && contains path_str (lit "/PS/")
    then lit "PS"
    else lit "UNKNOWN".

(** The folder rules of the specification, as a table in priority order:
    the aliases of a row, and the tag a component equal to one of them
    gives. *)
Definition folder_alias_table : list (list str * str) :=
  [ ([lit "ARCADE"], lit "ARCADE");
    ([lit "N64"; lit "NINTENDO64"], lit "N64");
    ([lit "PS"; lit "PS1"; lit "PSX"; lit "PLAYSTATION"], lit "PS");
    ([lit "DC"; lit "DREAMCAST"], lit "DC");
    ([lit "GBA"], lit "GBA");
    ([lit "GBC"], lit "GBC");
    ([lit "GB"], lit "GB");
    ([lit "FC"; lit "NES"], lit "FC");
    ([lit "SFC"; lit "SNES"], lit "SFC");
    ([lit "MD"; lit "GENESIS"; lit "MEGADRIVE"], lit "MD");
    ([lit "NEOGEO"], lit "NEOGEO");
    ([lit "ATARI"], lit "ATARI");
    ([lit "PCE"; lit "PCENGINE"; lit "TURBOGRAFX"], lit "PCE");
    ([lit "MS"], lit "MS");
    ([lit "GG"], lit "GG") ].

(** The first row of a table one of whose aliases is a component. *)
Fixpoint first_alias_row (table : list (list str * str))
    (path_parts : list str) : option str :=
  match table with
  | [] => None
  | (aliases, tag) :: rows =>
      if existsb (fun a => mem a path_parts) aliases then Some tag
      else first_alias_row rows path_parts
  end.

Definition folder_tag (rom_path : Path.t) : option str :=
  first_alias_row folder_alias_table (map upper (Path.parts rom_path)).

(** ** The candidate index *)

(** [roms_by_system[system].append(rom_file)], the list being created when
    the key is new. *)
Definition index_append (system : str) (rom_file : Path.t)
    (roms_by_system : gmap str (list Path.t)) : gmap str (list Path.t) :=
  <[system := default [] (roms_by_system !! system) ++ [rom_file]]>
    roms_by_system.

(** [MuOSOrganizer.scan_rom_directories].  [found] is what the walk of the
    source directories yields, in order: the regular files at depth at most
    six under the roots that exist. *)
Definition scan_rom_directories (found : list Path.t)
    : gmap str (list Path.t) :=
  fold_left
    (fun roms_by_system rom_file =>
       if is_rom_file rom_file
       then index_append (detect_system_from_path rom_file) rom_file
              roms_by_system
       else roms_by_system)
    found ∅.

(** [MuOSOrganizer.scan_output_directory].  [listing] gives, for every
    directory directly under [roms_dir], its name and the regular files
    in it.  The result is the updated index and the number of files
    added. *)
Definition scan_output_directory (roms_by_system : gmap str (list Path.t))
    (listing : list (str * list Path.t)) : gmap str (list Path.t) * nat :=
  fold_left
    (fun '(roms_by_system, output_rom_count) '(system_name, files) =>
       let roms_by_system :=
         match roms_by_system !! system_name with
         | Some _ => roms_by_system
         | None => <[system_name := []]> roms_by_system
         end in
       fold_left
         (fun '(roms_by_system, output_rom_count) rom_file =>
            if is_rom_file rom_file
            then (index_append system_name rom_file roms_by_system,
                  S output_rom_count)
            else (roms_by_system, output_rom_count))
         files (roms_by_system, output_rom_count))
    listing (roms_by_system, 0).

(** ** The name normaliser *)

(** [re.sub(op + '.*?' + cl, '', s)] for an opening and a closing bracket:
    scanning from the left, an opening bracket that is followed by a closing
    one, with no line feed in between ([.] matches every character but the
    line feed), is removed together with everything up to the first such
    closing bracket, and the scan resumes after it.  The inner loop [close]
    looks for that closing bracket. *)
Fixpoint re_sub_tag (op cl : ascii) (s : str) : str :=
  match s with
  | [] => []
  | c :: r =>
      if eqc c op then
        match
          (fix close (t : str) : option str :=
             match t with
             | [] => None
             | d :: t' =>
                 if eqc d cl then Some (re_sub_tag op cl t')
                 else if eqc d newline then None
                 else close t'
             end) r
        with
        | Some out => out
        | None => c :: re_sub_tag op cl r
        end
      else c :: re_sub_tag op cl r
  end.

(** Where a match that starts just before [t] ends: what follows the first
    closing bracket of [t], when no line feed comes before it. *)
Fixpoint skip_tag (cl : ascii) (t : str) : option str :=
  match t with
  | [] => None
  | d :: t' =>
      if eqc d cl then Some t'
      else if eqc d newline then None
      else skip_tag cl t'
  end.

Definition stop_words : gset str :=
  list_to_set
    [ lit "the"; lit "a"; lit "an"; lit "of"; lit "in"; lit "on"; lit "at";
      lit "to"; lit "for" ].

Definition not_stop_word (w : str) : bool := bool_decide (w ∉ stop_words).

(** The three [re.sub] calls of [normalize_name]. *)
Definition remove_tags (name : str) : str :=
  let name := re_sub_tag "["%char "]"%char name in
  let name := re_sub_tag "("%char ")"%char name in
  let name := re_sub_tag "{"%char "}"%char name in
  name.

(** The [replace] calls of [normalize_name], in the order of the source. *)
Definition remove_special (name : str) : str :=
  let name :=
    replace "_"%char (lit " ")
      (replace "-"%char (lit " ") (replace ":"%char [] name)) in
  let name :=
    replace "!"%char []
      (replace "&"%char (lit "and") (replace "'"%char [] name)) in
  let name := replace ","%char [] (replace "."%char [] name) in
  name.

(** [MuOSOrganizer.normalize_name]. *)
Definition normalize_name (name : str) : str :=
  let name := remove_tags name in
  let name := remove_special name in
  let words := split_ws (lower name) in
  let words := List.filter not_stop_word words in
  strip (join (lit " ") words).

(** ** The match scorer *)

Local Open Scope Q_scope.

(** The score block of the inner loop of [find_rom_for_game], for one
    normalised title of the entry and one normalised stem of a file. *)
Definition match_score (game_normalized rom_normalized : str) : Q :=
  if eqs game_normalized rom_normalized then 1
  else if contains rom_normalized game_normalized then 8 # 10
  else if contains game_normalized rom_normalized then 7 # 10
  else
    let game_words : gset str := list_to_set (split_ws game_normalized) in
    let rom_words : gset str := list_to_set (split_ws rom_normalized) in
    if bool_decide (game_words ≠ ∅) && bool_decide (rom_words ≠ ∅) then
      let common_words := game_words ∩ rom_words in
      if bool_decide (common_words ≠ ∅)
      then inject_Z (Z.of_nat (size common_words))
           / inject_Z (Z.of_nat (Nat.max (size game_words) (size rom_words)))
      else 0
    else 0.

(** ** The match engine *)

(** The variants [find_rom_for_game] tries for an entry name. *)
Definition game_variants (game_name : str) : list str :=
  (if contains game_name (lit "/") then
     let '(base, variants) :=
       match rsplit1 " "%char game_name with
       | Some bv => bv
       | None => ([], game_name)
       end in
     if contains variants (lit "/")
     then map (fun variant =>
                 if nonempty base then base ++ lit " " ++ variant
                 else variant)
            (split_on "/"%char variants)
     else []
   else [])
  ++ [game_name].

(** The list [find_rom_for_game] takes its candidates from: the group of
    the index chosen by the chain of tests on the raw label. *)
Definition candidates_of (system : str)
    (available_roms : gmap str (list Path.t)) : list Path.t :=
  let muos_system := muos_folder system in
  let get (k : str) := default [] (available_roms !! k) in
  if mem system [lit "Nintendo 64"; lit "N64"] then get (lit "N64")
  else if mem system [lit "PlayStation"; lit "PS1"; lit "PSX"]
  then get (lit "PS")
  else if mem system [lit "Arcade"; lit "ARCADE"; lit "MAME"]
  then get (lit "ARCADE")
  else if mem system [lit "Neo Geo"; lit "NEOGEO"] then get (lit "NEOGEO")
  else if mem system [lit "Genesis"; lit "Mega Drive"; lit "Sega Genesis"]
  then get (lit "MD")
  else if mem system [lit "NES"; lit "Nintendo Entertainment System"]
  then get (lit "FC")
  else if mem system [lit "SNES"; lit "Super Nintendo"] then get (lit "SFC")
  else if mem system [lit "Game Boy"; lit "GB"] then get (lit "GB")
  else if mem system [lit "Game Boy Color"; lit "GBC"] then get (lit "GBC")
  else if mem system [lit "Game Boy Advance"; lit "GBA"]
  then get (lit "GBA")
  else get muos_system.

(** The test of the inner loop whose [continue] skips a candidate: the
    file is classified, and into another system than the entry's. *)
Definition other_system (muos_system : str) (rom_path : Path.t) : bool :=
  let detected_system := detect_system_from_path rom_path in
  negb (eqs detected_system muos_system)
  && negb (eqs detected_system (lit "UNKNOWN")).

(** The state of the two loops: either the function has returned, or the
    loops go on with [best_match] and [best_score]. *)
Inductive search :=
  | Returned (result : option Path.t)
  | Running (best_match : option Path.t) (best_score : Q).

(** The inner loop, [for rom_path in candidates], for one variant. *)
Fixpoint scan_candidates (muos_system game_normalized : str)
    (candidates : list Path.t) (best_match : option Path.t) (best_score : Q)
    : search :=
  match candidates with
  | [] => Running best_match best_score
  | rom_path :: rest =>
      if other_system muos_system rom_path
      then scan_candidates muos_system game_normalized rest
             best_match best_score
      else
        let rom_normalized := normalize_name (Path.stem rom_path) in
        let score := match_score game_normalized rom_normalized in
        let '(best_match, best_score) :=
          if negb (Qle_bool score best_score) then (Some rom_path, score)
          else (best_match, best_score) in
        if Qle_bool 1 score then Returned best_match
        else scan_candidates muos_system game_normalized rest
               best_match best_score
  end.

(** The outer loop, [for variant_name in game_variants]. *)
Fixpoint scan_variants (muos_system : str) (variants : list str)
    (candidates : list Path.t) (best_match : option Path.t) (best_score : Q)
    : search :=
  match variants with
  | [] => Running best_match best_score
  | variant_name :: rest =>
      let game_normalized := normalize_name variant_name in
      match scan_candidates muos_system game_normalized candidates
              best_match best_score with
      | Returned result => Returned result
      | Running best_match best_score =>
          scan_variants muos_system rest candidates best_match best_score
      end
  end.

(** [MuOSOrganizer.find_rom_for_game]. *)
Definition find_rom_for_game (game_name system : str)
    (available_roms : gmap str (list Path.t)) : option Path.t :=
  let muos_system := muos_folder system in
  let game_variants := game_variants game_name in
  let candidates := candidates_of system available_roms in
  match candidates with
  | [] => None
  | _ :: _ =>
      match scan_variants muos_system game_variants candidates None 0 with
      | Returned result => result
      | Running best_match best_score =>
          match best_match with
          | Some rom_path =>
              if Qle_bool (1 # 2) best_score then Some rom_path else None
          | None => None
          end
      end
  end.

(** The files of the group of an entry that the inner loop scores. *)
Definition eligible (system : str) (available_roms : gmap str (list Path.t))
    : list Path.t :=
  List.filter (fun rom_path => negb (other_system (muos_folder system) rom_path))
    (candidates_of system available_roms).

(** The score of one variant against one file. *)
Definition pair_score (variant_name : str) (rom_path : Path.t) : Q :=
  match_score (normalize_name variant_name)
    (normalize_name (Path.stem rom_path)).

(** The greatest of a list of scores, 0 for the empty list. *)
Definition Qmax_list (l : list Q) : Q :=
  fold_right (fun x m => if Qle_bool m x then x else m) 0 l.

(** The best score over all pairs of a variant and an eligible file. *)
Definition best_pair_score (game_name system : str)
    (available_roms : gmap str (list Path.t)) : Q :=
  Qmax_list
    (flat_map
       (fun variant_name =>
          map (pair_score variant_name) (eligible system available_roms))
       (game_variants game_name)).

(** The two loops seen as one loop over the scored pairs, in the order the
    program meets them. *)
Fixpoint scan_scored (l : list (Path.t * Q)) (best_match : option Path.t)
    (best_score : Q) : search :=
  match l with
  | [] => Running best_match best_score
  | (rom_path, score) :: rest =>
      let '(best_match, best_score) :=
        if negb (Qle_bool score best_score) then (Some rom_path, score)
        else (best_match, best_score) in
      if Qle_bool 1 score then Returned best_match
      else scan_scored rest best_match best_score
  end.

Definition scored_pairs (variants : list str) (files : list Path.t)
    : list (Path.t * Q) :=
  flat_map
    (fun variant_name =>
       map (fun rom_path => (rom_path, pair_score variant_name rom_path))
         files)
    variants.

Local Close Scope Q_scope.

(** The variants as the specification words them: the name is cut at the
    last space before its slash group, and the part before the cut is put
    in front of every alternative of the group; the name itself comes
    last.  A name without a slash has itself as only variant. *)
Definition variants_by_claim (game_name : str) : list str :=
  match rfind "/"%char game_name with
  | None => [game_name]
  | Some k =>
      match rfind " "%char (firstn k game_name) with
      | None => split_on "/"%char game_name ++ [game_name]
      | Some j =>
          let base := firstn j game_name in
          let group := skipn (S j) game_name in
          map (fun alt =>
                 if nonempty base then base ++ lit " " ++ alt else alt)
            (split_on "/"%char group)
          ++ [game_name]
      end
  end.

(** The first eligible file whose stem normalises to the empty string. *)
Definition first_empty_stem (files : list Path.t) : option Path.t :=
  List.find (fun rom_path => eqs (normalize_name (Path.stem rom_path)) [])
    files.

(** ** The batch *)

Module Organizer.

(** The exception [Path.mkdir] raises when the parent is missing. *)
Inductive exn := FileNotFoundError (path : Path.t).

(** A row of the game list, as [read_csv] builds it. *)
Record game := { name : str; system : str; rom_path : str }.

(** What [process_game] prints for an entry. *)
Inductive line :=
  | AlreadyInOutput (game_name system : str)
  | Found (game_name system : str) (rom_file : Path.t)
  | NotFound (game_name system : str).

(** The part of the world [process_game] acts on: the directories that
    exist, the counters [stats['found']] and [stats['missing']], and the
    lines printed so far. *)
Record world := {
  dirs : gset Path.t;
  found : nat;
  missing : nat;
  printed : list line
}.

(** [path.mkdir(exist_ok=True)]: nothing happens when the directory
    exists; it is created when its parent exists; otherwise the call
    raises.  Paths are compared as written (no [..], no links). *)
Definition mkdir_exist_ok (path : Path.t) (w : world) : exn + world :=
  if bool_decide (path ∈ dirs w) then inr w
  else if bool_decide (Path.parent path ∈ dirs w)
  then inr {| dirs := {[path]} ∪ dirs w; found := found w;
              missing := missing w; printed := printed w |}
  else inl (FileNotFoundError path).

Definition count_found (l : line) (w : world) : world :=
  {| dirs := dirs w; found := S (found w); missing := missing w;
     printed := printed w ++ [l] |}.

Definition count_missing (l : line) (w : world) : world :=
  {| dirs := dirs w; found := found w; missing := S (missing w);
     printed := printed w ++ [l] |}.

(** [MuOSOrganizer.process_game] for an entry without [rom_path], in a run
    with [download_media] and [copy_roms] off and [download_missing] off.
    (With them on, the function goes on to download and copy; it handles
    no exception of its own in either case.) *)
Definition process_game (g : game) (available_roms : gmap str (list Path.t))
    (roms_dir : Path.t) (w : world) : exn + world :=
  let game_name := name g in
  let system := system g in
  let muos_system := muos_folder system in
  let system_dir := Path.div roms_dir muos_system in
  match mkdir_exist_ok system_dir w with
  | inl e => inl e
  | inr w =>
      let rom_file := find_rom_for_game game_name system available_roms in
      match rom_file with
      | Some rom_file =>
          if bool_decide (Path.parent rom_file = system_dir)
          then inr (count_found (AlreadyInOutput game_name system) w)
          else inr (count_found (Found game_name system rom_file) w)
      | None => inr (count_missing (NotFound game_name system) w)
      end
  end.

(** The loop of [MuOSOrganizer.organize] over the game list:
    [for game in games_list: self.process_game(...)], with no handler. *)
Fixpoint process_games (games_list : list game)
    (available_roms : gmap str (list Path.t)) (roms_dir : Path.t)
    (w : world) : exn + world :=
  match games_list with
  | [] => inr w
  | g :: rest =>
      match process_game g available_roms roms_dir w with
      | inl e => inl e
      | inr w => process_games rest available_roms roms_dir w
      end
  end.

(** The loop the specification describes: an entry whose evaluation raises
    is skipped and the loop goes on. *)
Fixpoint process_games_skipping (games_list : list game)
    (available_roms : gmap str (list Path.t)) (roms_dir : Path.t)
    (w : world) : world :=
  match games_list with
  | [] => w
  | g :: rest =>
      match process_game g available_roms roms_dir w with
      | inl _ => process_games_skipping rest available_roms roms_dir w
      | inr w => process_games_skipping rest available_roms roms_dir w
      end
  end.

End Organizer.

(** ** Notions the statements use *)

(** Every alias of the folder table. *)
Definition folder_aliases : list str := flat_map fst folder_alias_table.

(** The disc-image extensions of the last rule of the classifier. *)
Definition disc_extensions : list str :=
  [lit ".chd"; lit ".iso"; lit ".cue"; lit ".bin"].

(** What [find_rom_for_game] returns once the loops are over. *)
Definition result_of (s : search) : option Path.t :=
  match s with
  | Returned result => result
  | Running (Some rom_path) best_score =>
      if Qle_bool (1 # 2) best_score then Some rom_path else None
  | Running None _ => None
  end.

(** The word set of a normalised title. *)
Definition words (s : str) : gset str := list_to_set (split_ws s).

(** The quotient of the token-overlap rule. *)
Definition overlap (game_words rom_words : gset str) : Q :=
  (inject_Z (Z.of_nat (size (game_words ∩ rom_words)))
   / inject_Z (Z.of_nat (Nat.max (size game_words) (size rom_words))))%Q.

(** No opening bracket of the text comes before a closing one. *)
Definition no_pair (op cl : ascii) (s : str) : Prop :=
  ~ [op; cl] `sublist_of` s.

(** The six bracket characters, and the bracket characters of a text. *)
Definition bracket (c : ascii) : bool := existsb (eqc c) (lit "[](){}").
Definition brackets (s : str) : str := List.filter bracket s.

(** The characters [normalize_name] replaces. *)
Definition special (c : ascii) : bool := existsb (eqc c) (lit ":-_'&!.,").

(** A character of a normalised word. *)
Definition plain (c : ascii) : Prop :=
  is_space c = false /\ special c = false /\ lower_char c = c.

(** A word of a normalised title. *)
Definition word_ok (w : str) : Prop := w <> [] /\ Forall plain w.

(** The words of a normalised title. *)
Definition normal_form (ws : list str) : Prop :=
  Forall word_ok ws
  /\ Forall (fun w => not_stop_word w = true) ws
  /\ no_pair "["%char "]"%char (join (lit " ") ws)
  /\ no_pair "("%char ")"%char (join (lit " ") ws)
  /\ no_pair "{"%char "}"%char (join (lit " ") ws).

(** ** Sample data *)

Module Sample.

Definition chrono_rom : Path.t :=
  Path.of_str (lit "roms/SNES/Chrono Trigger (USA).sfc").

Definition sonic_rom : Path.t :=
  Path.of_str (lit "roms/SNES/Sonic the Hedgehog (USA).sfc").

Definition mario_rom : Path.t := Path.of_str (lit "roms/SNES/Mario.sfc").

(** A file whose stem is a region tag only. *)
Definition tag_only_rom : Path.t := Path.of_str (lit "roms/SNES/(USA).sfc").

(** A file in a folder that names no system, with an archive extension. *)
Definition zelda_zip : Path.t := Path.of_str (lit "roms/misc/Zelda.zip").

(** A disc image in a folder that names no system. *)
Definition zelda_bin : Path.t := Path.of_str (lit "roms/misc/Zelda.bin").

Definition gb_gba_rom : Path.t := Path.of_str (lit "/roms/GB/GBA/Metroid.zip").

(** The index of a scan that finds three files. *)
Definition library : gmap str (list Path.t) :=
  scan_rom_directories [zelda_zip; chrono_rom; sonic_rom].

(** The index of a scan that finds two Super Famicom files. *)
Definition sfc_library : gmap str (list Path.t) :=
  scan_rom_directories [mario_rom; tag_only_rom].

(** A text of two lines: a bracket, a line feed, a bracket. *)
Definition two_lines : str := ["["%char; newline; "]"%char].

Definition sega_cd : Organizer.game :=
  {| Organizer.name := lit "Sonic CD";
     Organizer.system := lit "Sega CD/Mega CD";
     Organizer.rom_path := [] |}.

Definition chrono : Organizer.game :=
  {| Organizer.name := lit "Chrono Trigger";
     Organizer.system := lit "SNES";
     Organizer.rom_path := [] |}.

Definition roms_dir : Path.t := Path.of_str (lit "muOS_Complete/Roms").

(** The output directory as [organize] has just created it. *)
Definition fresh_output : Organizer.world :=
  {| Organizer.dirs := {[ Path.of_str (lit "muOS_Complete"); roms_dir ]};
     Organizer.found := 0;
     Organizer.missing := 0;
     Organizer.printed := [] |}.

End Sample.

(** ** The artwork tables *)

(** [SkyscraperWrapper.platform_map]. *)
Definition platform_map : gmap str str :=
  list_to_map
    [ (lit "N64", lit "n64");
      (lit "PS", lit "psx");
      (lit "DC", lit "dreamcast");
      (lit "ARCADE", lit "arcade");
      (lit "GB", lit "gb");
      (lit "GBC", lit "gbc");
      (lit "GBA", lit "gba");
      (lit "FC", lit "nes");
      (lit "SFC", lit "snes");
      (lit "MD", lit "megadrive");
      (lit "NEOGEO", lit "neogeo");
      (lit "ATARI", lit "atari2600");
      (lit "PCE", lit "pcengine");
      (lit "MS", lit "mastersystem");
      (lit "GG", lit "gamegear") ].

(** [SkyscraperWrapper.catalogue_names]. *)
Definition catalogue_names : gmap str str :=
  list_to_map
    [ (lit "N64", lit "Nintendo N64");
      (lit "PS", lit "Sony PlayStation");
      (lit "DC", lit "Sega Dreamcast");
      (lit "ARCADE", lit "Arcade");
      (lit "GB", lit "Nintendo Game Boy");
      (lit "GBC", lit "Nintendo Game Boy Color");
      (lit "GBA", lit "Nintendo Game Boy Advance");
      (lit "FC", lit "Nintendo NES - Famicom");
      (lit "SFC", lit "Nintendo SNES - SFC");
      (lit "MD", lit "Sega Mega Drive - Genesis");
      (lit "NEOGEO", lit "SNK Neo Geo");
      (lit "ATARI", lit "Atari 2600");
      (lit "PCE", lit "NEC PC Engine");
      (lit "MS", lit "Sega Master System");
      (lit "GG", lit "Sega Game Gear") ].

(** The look-ups of [scrape_system_artwork] and its test
    [if not sky_platform or not catalogue_name: return False]: the two
    names, when both are in the tables and neither is empty. *)
Definition artwork_names (muos_system : str) : option (str * str) :=
  let sky_platform := platform_map !! muos_system in
  let catalogue_name := catalogue_names !! muos_system in
  match sky_platform, catalogue_name with
  | Some (c :: p), Some (d :: n) => Some (c :: p, d :: n)
  | _, _ => None
  end.

(** The tags [detect_system_from_path] returns. *)
Definition system_tags : list str :=
  [ lit "ARCADE"; lit "N64"; lit "PS"; lit "DC"; lit "GBA"; lit "GBC";
    lit "GB"; lit "FC"; lit "SFC"; lit "MD"; lit "NEOGEO"; lit "ATARI";
    lit "PCE"; lit "MS"; lit "GG"; lit "UNKNOWN" ].

(** ** The game list *)

Module Csv.

(** A row as [csv.DictReader] yields it: the columns of the header, each
    with its field, or with [None] when the line is shorter than the
    header. *)
Definition row := gmap str (option str).

(** [row.get(key, default)]. *)
Definition get (r : row) (key : str) (default : option str) : option str :=
  match r !! key with
  | Some v => v
  | None => default
  end.

(** The dictionary [read_csv] builds for a row. *)
Record entry := {
  name : option str;
  system : option str;
  category : option str;
  notes : option str;
  rom_path : option str
}.

(** The truth value of a field: a string that is not empty. *)
Definition truthy (v : option str) : bool :=
  match v with
  | Some (_ :: _) => true
  | _ => false
  end.

Definition game_of_row (r : row) : entry :=
  {| name :=
       get r (lit "Game Name")
         (get r (lit "Game")
            (get r (lit "Name") (get r (lit "name") (Some []))));
     system := get r (lit "System") (get r (lit "system") (Some []));
     category :=
       get r (lit "Category") (get r (lit "Category/Set") (Some []));
     notes := get r (lit "Notes") (Some []);
     rom_path :=
       get r (lit "rom_path")
         (get r (lit "ROM Path")
            (get r (lit "Rom Path") (get r (lit "path") (Some [])))) |}.

(** The loop of [MuOSOrganizer.read_csv] over the rows of the reader. *)
Definition read_rows (rows : list row) : list entry :=
  List.filter (fun g => truthy (name g) && truthy (system g))
    (map game_of_row rows).

(** The delimiter [read_csv] picks from the first line. *)
Definition delimiter (first_line : str) : ascii :=
  if contains first_line (lit (String "009"%char EmptyString))
  then "009"%char
  else ","%char.

End Csv.

(** ** The report *)

(** The test [if not rom_file] on the result of [find_rom_for_game] for a
    game: a path is always true, so the test holds for [None] only. *)
Definition is_missing (available_roms : gmap str (list Path.t))
    (g : Organizer.game) : bool :=
  match find_rom_for_game (Organizer.name g) (Organizer.system g)
          available_roms with
  | Some _ => false
  | None => true
  end.


(** ** The loops of the two scans *)

(** The ROM files of a walk that are classified into a system. *)
Definition roms_of_system (k : str) (found : list Path.t) : list Path.t :=
  List.filter
    (fun f => is_rom_file f && eqs (detect_system_from_path f) k) found.

(** The loop of [scan_rom_directories], from any index. *)
Definition scan_into (roms_by_system : gmap str (list Path.t))
    (found : list Path.t) : gmap str (list Path.t) :=
  fold_left
    (fun roms_by_system rom_file =>
       if is_rom_file rom_file
       then index_append (detect_system_from_path rom_file) rom_file
              roms_by_system
       else roms_by_system)
    found roms_by_system.

(** The ROM files of the folders of a listing that have a given name. *)
Definition listed_roms (k : str) (listing : list (str * list Path.t))
    : list Path.t :=
  List.filter is_rom_file
    (concat (map snd (List.filter (fun e => eqs (fst e) k) listing))).

(** The inner loop of [scan_output_directory]. *)
Definition scan_folder (system_name : str) (files : list Path.t)
    (state : gmap str (list Path.t) * nat) : gmap str (list Path.t) * nat :=
  fold_left
    (fun '(roms_by_system, output_rom_count) rom_file =>
       if is_rom_file rom_file
       then (index_append system_name rom_file roms_by_system,
             S output_rom_count)
       else (roms_by_system, output_rom_count))
    files state.

(** The outer loop of [scan_output_directory], from any count. *)
Definition scan_output_from (state : gmap str (list Path.t) * nat)
    (listing : list (str * list Path.t)) : gmap str (list Path.t) * nat :=
  fold_left
    (fun '(roms_by_system, output_rom_count) '(system_name, files) =>
       let roms_by_system :=
         match roms_by_system !! system_name with
         | Some _ => roms_by_system
         | None => <[system_name := []]> roms_by_system
         end in
       scan_folder system_name files (roms_by_system, output_rom_count))
    listing state.

(** ** A sample run *)

Module Runs.

(** The world after the entry Chrono Trigger is processed in the fresh
    output directory with the sample index. *)
Definition chrono_processed : Organizer.world :=
  {| Organizer.dirs :=
       {[ Path.div Sample.roms_dir (lit "SFC") ]}
       ∪ Organizer.dirs Sample.fresh_output;
     Organizer.found := 1;
     Organizer.missing := 0;
     Organizer.printed :=
       [Organizer.Found (lit "Chrono Trigger") (lit "SNES")
          Sample.chrono_rom] |}.

End Runs.

(** * Properties *)

(** ** Facts on strings *)

Section StrFacts.

Implicit Types (s t : str) (c : ascii).

Lemma eqc_true a b : eqc a b = true <-> a = b.
Proof. unfold eqc. apply bool_decide_eq_true. Qed.

Lemma eqc_false a b : eqc a b = false <-> a <> b.
Proof. unfold eqc. apply bool_decide_eq_false. Qed.

Lemma eqc_refl a : eqc a a = true.
Proof. by apply eqc_true. Qed.

Lemma eqs_true s t : eqs s t = true <-> s = t.
Proof. unfold eqs. apply bool_decide_eq_true. Qed.

Lemma eqs_false s t : eqs s t = false <-> s <> t.
Proof. unfold eqs. apply bool_decide_eq_false. Qed.

Lemma mem_true x (l : list str) : mem x l = true <-> x ∈ l.
Proof. unfold mem. apply bool_decide_eq_true. Qed.

Lemma mem_false x (l : list str) : mem x l = false <-> x ∉ l.
Proof. unfold mem. apply bool_decide_eq_false. Qed.

Lemma starts_with_spec p s : starts_with p s = true <-> exists r, s = p ++ r.
Proof.
  revert s. induction p as [|a p IH]; intros s; simpl.
  - split; [eauto | done].
  - destruct s as [|b s].
    + split; [done | intros [r Hr]; discriminate].
    + rewrite andb_true_iff, eqc_true, IH. split.
      * intros [-> [r ->]]. eauto.
      * intros [r [= -> ->]]. eauto.
Qed.

Lemma contains_spec s sub :
  contains s sub = true <-> exists l1 l2, s = l1 ++ sub ++ l2.
Proof.
  induction s as [|a s IH]; simpl.
  - rewrite orb_false_r, starts_with_spec. split.
    + intros [r Hr]. by exists [], r.
    + intros (l1 & l2 & H). symmetry in H.
      apply app_eq_nil in H as [-> H]. eauto.
  - rewrite orb_true_iff, starts_with_spec, IH. split.
    + intros [[r Hr] | (l1 & l2 & ->)].
      * by exists [], r.
      * by exists (a :: l1), l2.
    + intros (l1 & l2 & H). destruct l1 as [|b l1]; simpl in H.
      * left. eauto.
      * right. injection H as -> ->. eauto.
Qed.

Lemma contains_nil s : contains s [] = true.
Proof. destruct s; reflexivity. Qed.

Lemma split_by_not_nil p s : split_by p s <> [].
Proof. destruct s as [|c r]; simpl; [done|]. destruct (p c); [done|]. by destruct (split_by p r). Qed.

Lemma split_by_app p a c b :
  p c = true -> split_by p (a ++ c :: b) = split_by p a ++ split_by p b.
Proof.
  intros Hc. induction a as [|x a IH]; simpl.
  - by rewrite Hc.
  - destruct (p x); rewrite IH; [done|].
    pose proof (split_by_not_nil p a). by destruct (split_by p a).
Qed.

Lemma split_by_none p s :
  Forall (fun c => p c = false) s -> split_by p s = [s].
Proof.
  induction 1 as [|c r Hc _ IH]; simpl; [done|]. by rewrite Hc, IH.
Qed.

Lemma split_by_join p c (ws : list str) :
  p c = true -> ws <> [] ->
  Forall (Forall (fun x => p x = false)) ws ->
  split_by p (join [c] ws) = ws.
Proof.
  intros Hc Hne Hws. induction Hws as [|w ws Hw Hws IH]; [done|].
  destruct ws as [|w' ws].
  - simpl. by apply split_by_none.
  - change (join [c] (w :: w' :: ws)) with (w ++ c :: join [c] (w' :: ws)).
    rewrite split_by_app, IH, split_by_none by done. done.
Qed.

End StrFacts.

(** ** Facts on characters *)

Ltac each_char c := destruct c as [[] [] [] [] [] [] [] []].

(** A character does not occur in a text that is given. *)
Ltac not_in_text :=
  vm_compute; let H := fresh in
  intros H; repeat (destruct H as [H|H]; [discriminate H|]); exact H.


Lemma upper_char_slash c : upper_char c = "/"%char <-> c = "/"%char.
Proof. split; [|by intros ->]. each_char c; vm_compute; congruence. Qed.

Lemma upper_app s t : upper (s ++ t) = upper s ++ upper t.
Proof. apply map_app. Qed.

Lemma upper_join_slash (ws : list str) :
  upper (join (lit "/") ws) = join (lit "/") (map upper ws).
Proof.
  induction ws as [|w ws IH]; [done|]. destruct ws as [|w' ws]; [done|].
  change (join (lit "/") (w :: w' :: ws))
    with (w ++ lit "/" ++ join (lit "/") (w' :: ws)).
  rewrite !upper_app, IH. done.
Qed.

Lemma upper_slashes s : Forall (fun c => c = "/"%char) s -> upper s = s.
Proof. induction 1 as [|c r -> _ IH]; simpl; [done|]. by rewrite IH. Qed.

Lemma upper_no_slash s : ~ In "/"%char s -> ~ In "/"%char (upper s).
Proof.
  intros H Hin. apply H. unfold upper in Hin.
  apply in_map_iff in Hin as (c & Hc & Hin).
  rewrite upper_char_slash in Hc. by subst.
Qed.

(** ** The classifier *)

(** The pieces of a text between its slashes are empty or components of
    the path the text was printed from. *)
Lemma split_slashes_root (r s x : str) :
  Forall (fun c => c = "/"%char) r ->
  x ∈ split_on "/"%char (r ++ s) -> x = [] \/ x ∈ split_on "/"%char s.
Proof.
  induction 1 as [|c r -> _ IH]; [auto|].
  unfold split_on in *. cbn [app split_by]. rewrite eqc_refl.
  intros [->|Hin]%elem_of_cons; auto.
Qed.

Lemma split_upper_to_str (p : Path.t) (x : str) :
  Path.wf p -> x <> [] -> x <> lit "." ->
  x ∈ split_on "/"%char (upper (Path.to_str p)) ->
  x ∈ map upper (Path.segs p).
Proof.
  intros [Hroot Hsegs] Hx Hdot. destruct p as [r ss]. simpl in *.
  assert (Hgen : x ∈ split_on "/"%char (upper (r ++ join (lit "/") ss)) ->
                 x ∈ map upper ss).
  { rewrite upper_app, upper_join_slash, (upper_slashes r) by done.
    intros [->|Hin]%split_slashes_root; [done| |done].
    destruct ss as [|s0 ss]; [apply list_elem_of_singleton in Hin; done|].
    unfold split_on in Hin. change (lit "/") with ["/"%char] in Hin.
    rewrite split_by_join in Hin; [done|apply eqc_refl|done|].
    apply Forall_forall. intros w Hw. apply Forall_forall. intros c Hc.
    apply eqc_false. intros <-.
    apply list_elem_of_In, in_map_iff in Hw as (w0 & <- & Hw0).
    rewrite Forall_forall in Hsegs.
    destruct (Hsegs w0 (proj2 (list_elem_of_In _ _) Hw0)) as [_ Hns].
    by apply (upper_no_slash w0 Hns), list_elem_of_In. }
  unfold Path.to_str; simpl. destruct r as [|c r]; [destruct ss as [|s0 ss]|]; try done.
  intros Hin. vm_compute in Hin. apply list_elem_of_singleton in Hin. done.
Qed.

Lemma slash_PS_in_parts (p : Path.t) :
  Path.wf p ->
  contains (upper (Path.to_str p)) (lit "/PS/") = true ->
  mem (lit "PS") (map upper (Path.parts p)) = true.
Proof.
  intros Hwf (l1 & l2 & Heq)%contains_spec. apply mem_true.
  assert (Hin : lit "PS" ∈ map upper (Path.segs p)).
  { apply split_upper_to_str; [done|done|done|]. rewrite Heq.
    change (lit "/PS/" ++ l2) with ("/"%char :: lit "PS" ++ "/"%char :: l2).
    unfold split_on.
    rewrite !split_by_app by apply eqc_refl.
    rewrite (split_by_none _ (lit "PS")) by (repeat constructor).
    apply elem_of_app. right. apply list_elem_of_here. }
  unfold Path.parts. destruct (Path.root p); [done|].
  simpl. by apply list_elem_of_further.
Qed.

Ltac case_mem :=
  match goal with
  | |- context [mem ?a ?l] =>
      let E := fresh "E" in destruct (mem a l) eqn:E; cbn [orb andb negb]
  end.

(** The chain of folder tests of the program is the table look-up. *)
Lemma detect_folder_tag (p : Path.t) (tag : str) :
  folder_tag p = Some tag -> detect_system_from_path p = tag.
Proof.
  unfold folder_tag, detect_system_from_path, folder_alias_table.
  cbn [first_alias_row existsb]. cbv zeta.
  generalize (map upper (Path.parts p)) as path_parts. intros path_parts.
  rewrite ?orb_false_r.
  repeat (case_mem; [intros [= <-]; reflexivity|]).
  discriminate.
Qed.

Lemma folder_tag_complete (p : Path.t) (a : str) :
  In a folder_aliases -> a ∈ map upper (Path.parts p) ->
  exists tag, folder_tag p = Some tag.
Proof.
  unfold folder_tag, folder_alias_table.
  cbn [first_alias_row existsb].
  generalize (map upper (Path.parts p)) as path_parts. intros path_parts Ha Hin.
  apply mem_true in Hin.
  unfold folder_aliases, folder_alias_table in Ha.
  cbn [flat_map fst app In] in Ha.
  repeat (destruct Ha as [<-|Ha]; [rewrite Hin, ?orb_true_r; cbn [orb];
    repeat (case_mem; [eauto|]); eauto |]).
  done.
Qed.

Lemma folder_tag_none (p : Path.t) :
  (forall a, In a folder_aliases -> a ∉ map upper (Path.parts p)) ->
  folder_tag p = None.
Proof.
  intros H. destruct (folder_tag p) as [tag|] eqn:E; [|done]. exfalso.
  revert E. unfold folder_tag, folder_alias_table.
  cbn [first_alias_row existsb].
  repeat match goal with
  | |- context [mem ?a ?l] =>
      rewrite (proj2 (mem_false a l)) by (apply H; vm_compute; tauto)
  end.
  cbn. discriminate.
Qed.

(** C7.  The folder rules of [detect_system_from_path] are tried in a
    fixed order, the more specific token first: a path whose upper-cased
    components hold both [GB] and [GBA], and none of the aliases tried
    before them ([ARCADE], [N64], [NINTENDO64], [PS], [PS1], [PSX],
    [PLAYSTATION], [DC], [DREAMCAST]), is classified [GBA]; and whenever
    a component is an alias of the folder table, the result is the tag of
    the first row of the table that has a component, whatever the
    extension of the file. *)
Theorem folder_priority (p : Path.t) :
  (lit "GB" ∈ map upper (Path.parts p) ->
   lit "GBA" ∈ map upper (Path.parts p) ->
   Forall (fun a => a ∉ map upper (Path.parts p))
     [lit "ARCADE"; lit "N64"; lit "NINTENDO64"; lit "PS"; lit "PS1";
      lit "PSX"; lit "PLAYSTATION"; lit "DC"; lit "DREAMCAST"] ->
   detect_system_from_path p = lit "GBA")
  /\ (forall a, In a folder_aliases -> a ∈ map upper (Path.parts p) ->
      exists tag, folder_tag p = Some tag /\ detect_system_from_path p = tag).
Proof.
  split.
  - intros _ HGBA Hearly.
    repeat match goal with
    | H : Forall _ (_ :: _) |- _ =>
        apply Forall_cons in H as [?%mem_false H]
    end.
    apply mem_true in HGBA.
    unfold detect_system_from_path. cbv zeta.
    repeat match goal with H : mem _ _ = _ |- _ => rewrite H; clear H end.
    reflexivity.
  - intros a Ha Hin. destruct (folder_tag_complete p a Ha Hin) as [tag Htag].
    exists tag. split; [done|]. by apply detect_folder_tag.
Qed.

Example folder_priority_gb_gba :
  detect_system_from_path Sample.gb_gba_rom = lit "GBA"
  /\ folder_tag Sample.gb_gba_rom = Some (lit "GBA").
Proof. split; vm_compute; reflexivity. Qed.

Example folder_before_extension :
  Path.suffix Sample.chrono_rom = lit ".sfc"
  /\ detect_system_from_path
       (Path.of_str (lit "roms/GENESIS/Chrono Trigger (USA).sfc"))
     = lit "MD".
Proof. split; vm_compute; reflexivity. Qed.


(** C10.  A path none of whose upper-cased components is a folder alias
    and whose extension is [.chd], [.iso], [.cue] or [.bin] is classified
    [UNKNOWN]: the text of such a path cannot contain [/PS/], since that
    would make [PS] one of its components, so the branch of the extension
    rule that returns [PS] is never taken. *)
Theorem disc_image_unknown (p : Path.t) :
  Path.wf p ->
  (forall a, In a folder_aliases -> a ∉ map upper (Path.parts p)) ->
  In (lower (Path.suffix p)) disc_extensions ->
  detect_system_from_path p = lit "UNKNOWN".
Proof.
  intros Hwf Hno Hext.
  assert (HPS : contains (upper (Path.to_str p)) (lit "/PS/") = false).
  { destruct (contains _ _) eqn:E; [|done].
    apply slash_PS_in_parts, mem_true in E; [|done].
    exfalso. apply (Hno (lit "PS")); [vm_compute; tauto|done]. }
  unfold detect_system_from_path. cbv zeta. rewrite HPS.
  repeat match goal with
  | |- context [mem ?a (map upper ?l)] =>
      rewrite (proj2 (mem_false a (map upper l))) by (apply Hno; vm_compute; tauto)
  end.
  cbn [orb andb negb].
  destruct Hext as [<-|[<-|[<-|[<-|[]]]]]; reflexivity.
Qed.

Lemma disc_image_unknown_witness :
  detect_system_from_path Sample.zelda_bin = lit "UNKNOWN".
Proof.
  apply (disc_image_unknown Sample.zelda_bin).
  - split; [constructor|].
    repeat (constructor; [split; [discriminate|not_in_text]|]). constructor.
  - intros a Ha. apply mem_false. vm_compute in Ha.
    repeat (destruct Ha as [<-|Ha]; [vm_compute; reflexivity|]).
    destruct Ha.
  - vm_compute. tauto.
Defined.


(** ** The match engine *)

Lemma muos_folder_lit (k v : string) :
  SYSTEM_TO_MUOS_FOLDER !! lit k = Some (lit v) -> muos_folder (lit k) = lit v.
Proof. unfold muos_folder. by intros ->. Qed.

(** The chain of tests of [find_rom_for_game] selects the group of the
    canonical tag. *)
Lemma candidates_of_muos (system : str) (available_roms : gmap str (list Path.t)) :
  candidates_of system available_roms
  = default [] (available_roms !! muos_folder system).
Proof.
  unfold candidates_of. cbv zeta.
  repeat (case_mem;
    [ apply mem_true in E;
      repeat (apply elem_of_cons in E as [->|E]; [f_equal; f_equal; vm_compute; reflexivity|]);
      by apply elem_of_nil in E | clear E ]).
  reflexivity.
Qed.

Lemma negb_Qle_bool (x y : Q) : negb (Qle_bool x y) = true <-> (y < x)%Q.
Proof.
  rewrite negb_true_iff. split.
  - intros H. apply Qnot_le_lt. intros Hle. apply Qle_bool_iff in Hle. congruence.
  - intros H. destruct (Qle_bool x y) eqn:E; [|done].
    apply Qle_bool_iff in E. by apply Qlt_not_le in H.
Qed.

Lemma Qle_bool_false (x y : Q) : Qle_bool x y = false <-> (y < x)%Q.
Proof. rewrite <- negb_Qle_bool. symmetry. apply negb_true_iff. Qed.

Lemma scan_scored_app l1 l2 bm bs :
  scan_scored (l1 ++ l2) bm bs
  = match scan_scored l1 bm bs with
    | Returned r => Returned r
    | Running bm' bs' => scan_scored l2 bm' bs'
    end.
Proof.
  revert bm bs. induction l1 as [|[p s] l1 IH]; intros bm bs; simpl; [done|].
  destruct (negb (Qle_bool s bs)); destruct (Qle_bool 1 s); auto.
Qed.

Lemma scan_candidates_scored muos v cands bm bs :
  scan_candidates muos (normalize_name v) cands bm bs
  = scan_scored
      (map (fun c => (c, pair_score v c))
         (List.filter (fun c => negb (other_system muos c)) cands))
      bm bs.
Proof.
  revert bm bs.
  induction cands as [|c cands IH]; intros bm bs;
    cbn [scan_candidates List.filter map scan_scored]; [done|].
  destruct (other_system muos c);
    cbn [negb scan_candidates List.filter map scan_scored]; [apply IH|].
  fold (pair_score v c).
  destruct (negb (Qle_bool (pair_score v c) bs));
    destruct (Qle_bool 1 (pair_score v c)); auto.
Qed.

Lemma scan_variants_scored muos vs cands bm bs :
  scan_variants muos vs cands bm bs
  = scan_scored
      (scored_pairs vs (List.filter (fun c => negb (other_system muos c)) cands))
      bm bs.
Proof.
  revert bm bs. unfold scored_pairs.
  induction vs as [|v vs IH]; intros bm bs;
    cbn [scan_variants flat_map]; [done|].
  rewrite scan_scored_app, scan_candidates_scored.
  destruct (scan_scored _ bm bs); auto.
Qed.

Lemma scored_pairs_nil vs : scored_pairs vs [] = [].
Proof. unfold scored_pairs. induction vs; cbn [flat_map map app]; auto. Qed.

(** [find_rom_for_game] is one pass over the scored pairs of the variants
    and the eligible files. *)
Lemma find_rom_for_game_scored game_name system available_roms :
  find_rom_for_game game_name system available_roms
  = result_of
      (scan_scored
         (scored_pairs (game_variants game_name)
            (eligible system available_roms))
         None 0%Q).
Proof.
  unfold find_rom_for_game, eligible. cbv zeta.
  destruct (candidates_of system available_roms) as [|c cands] eqn:E.
  - cbn [List.filter]. by rewrite scored_pairs_nil.
  - rewrite scan_variants_scored. by destruct (scan_scored _ _ _) as [|[]].
Qed.

Lemma scan_scored_returned l bm bs r :
  scan_scored l bm bs = Returned r -> (bs < 1)%Q ->
  exists p s, r = Some p /\ In (p, s) l /\ (1 <= s)%Q.
Proof.
  revert bm bs. induction l as [|[p s] l IH]; intros bm bs; simpl; [done|].
  destruct (Qle_bool 1 s) eqn:E1.
  - apply Qle_bool_iff in E1. intros H Hbs.
    assert (Hlt : negb (Qle_bool s bs) = true).
    { apply negb_Qle_bool. eapply Qlt_le_trans; eauto. }
    rewrite Hlt in H. injection H as <-.
    exists p, s. split; [done|]. split; [by left|done].
  - apply Qle_bool_false in E1.
    destruct (negb (Qle_bool s bs)); intros H Hbs;
      [destruct (IH _ _ H E1) as (p' & s' & ? & ? & ?)
      |destruct (IH _ _ H Hbs) as (p' & s' & ? & ? & ?)];
      exists p', s'; split; [done| |done|]; split; try done; by right.
Qed.

Lemma scan_scored_running l bm bs bm' bs' :
  scan_scored l bm bs = Running bm' bs' ->
  (bs <= bs')%Q
  /\ (forall p s, In (p, s) l -> (s <= bs')%Q /\ (s < 1)%Q)
  /\ ((bm' = bm /\ bs' = bs)
      \/ exists p, In (p, bs') l /\ bm' = Some p /\ (bs < bs')%Q).
Proof.
  revert bm bs. induction l as [|[p s] l IH]; intros bm bs; simpl.
  - intros [= <- <-]. split; [apply Qle_refl|]. split; [done|auto].
  - destruct (Qle_bool 1 s) eqn:E1;
      [by destruct (negb (Qle_bool s bs))|].
    apply Qle_bool_false in E1.
    destruct (negb (Qle_bool s bs)) eqn:E2; intros H;
      destruct (IH _ _ H) as (Hle & Hall & Hlast).
    + apply negb_Qle_bool in E2.
      split; [apply Qle_trans with s; [by apply Qlt_le_weak|done]|].
      split.
      * intros p0 s0 [[= <- <-]|Hin]; [by split|by apply (Hall p0)].
      * right. destruct Hlast as [[-> ->]|(p1 & Hin & -> & Hlt)].
        -- exists p. split; [by left|done].
        -- exists p1. split; [by right|]. split; [done|].
           by apply Qlt_trans with s.
    + apply negb_false_iff, Qle_bool_iff in E2.
      split; [done|]. split.
      * intros p0 s0 [[= <- <-]|Hin]; [|by apply (Hall p0)].
        split; [by apply Qle_trans with bs|done].
      * destruct Hlast as [?|(p1 & Hin & -> & Hlt)]; [by left|].
        right. exists p1. split; [by right|done].
Qed.

Lemma in_scored_pairs vs files p s :
  In (p, s) (scored_pairs vs files) <->
  exists v, In v vs /\ In p files /\ s = pair_score v p.
Proof.
  unfold scored_pairs. rewrite in_flat_map. split.
  - intros (v & Hv & Hin). apply in_map_iff in Hin as (c & [= <- <-] & Hc). eauto.
  - intros (v & Hv & Hp & ->). exists v. split; [done|].
    apply in_map_iff. eauto.
Qed.

(** A file [find_rom_for_game] returns is an eligible file. *)
Lemma find_rom_for_game_eligible game_name system available_roms r :
  find_rom_for_game game_name system available_roms = Some r ->
  In r (eligible system available_roms).
Proof.
  rewrite find_rom_for_game_scored.
  destruct (scan_scored _ _ _) as [res|bm bs] eqn:E; cbn [result_of].
  - intros ->. apply scan_scored_returned in E as (p & s & [= <-] & Hin & _); [|done].
    apply in_scored_pairs in Hin as (v & _ & Hin & _). done.
  - destruct bm as [p|]; [|done]. destruct (Qle_bool _ _); [|done]. intros [= <-].
    apply scan_scored_running in E as (_ & _ & [[? _]|(p' & Hin & [= <-] & _)]); [done|].
    apply in_scored_pairs in Hin as (v & _ & Hin & _). done.
Qed.

Lemma in_eligible system available_roms p :
  In p (eligible system available_roms) <->
  In p (default [] (available_roms !! muos_folder system))
  /\ (detect_system_from_path p = muos_folder system
      \/ detect_system_from_path p = lit "UNKNOWN").
Proof.
  unfold eligible. rewrite filter_In, candidates_of_muos.
  unfold other_system. cbv zeta.
  rewrite negb_true_iff, andb_false_iff, !negb_false_iff, !eqs_true. done.
Qed.

Lemma Qmax_list_ub (l : list Q) (x : Q) : In x l -> (x <= Qmax_list l)%Q.
Proof.
  induction l as [|y l IH]; simpl; [done|].
  intros [->|Hin].
  - destruct (Qle_bool (Qmax_list l) x) eqn:E; [apply Qle_refl|].
    apply Qle_bool_false in E. by apply Qlt_le_weak.
  - destruct (Qle_bool (Qmax_list l) y) eqn:E; [|by apply IH].
    apply Qle_bool_iff in E. apply Qle_trans with (Qmax_list l); [by apply IH|done].
Qed.

Lemma Qmax_list_cases (l : list Q) : Qmax_list l = 0%Q \/ In (Qmax_list l) l.
Proof.
  induction l as [|y l IH]; simpl; [by left|].
  destruct (Qle_bool (Qmax_list l) y); [right; by left|].
  destruct IH; [by left|right; by right].
Qed.

Lemma Qmax_list_nonneg (l : list Q) : (0 <= Qmax_list l)%Q.
Proof.
  induction l as [|y l IH]; simpl; [apply Qle_refl|].
  destruct (Qle_bool (Qmax_list l) y) eqn:E; [|done].
  apply Qle_bool_iff in E. by apply Qle_trans with (Qmax_list l).
Qed.

Lemma in_pair_scores vs files s :
  In s (flat_map (fun v => map (pair_score v) files) vs) <->
  exists p, In (p, s) (scored_pairs vs files).
Proof.
  rewrite in_flat_map. split.
  - intros (v & Hv & Hin). apply in_map_iff in Hin as (p & <- & Hp).
    exists p. apply in_scored_pairs. eauto.
  - intros (p & Hin). apply in_scored_pairs in Hin as (v & Hv & Hp & ->).
    exists v. split; [done|]. apply in_map_iff. eauto.
Qed.

(** C1, as amended.  A file is eligible for an entry exactly when it is
    listed in the group of the index under the canonical tag of the entry
    and its detected system is that tag or [UNKNOWN]; the result of
    [find_rom_for_game] is computed from the eligible files alone, and a
    file it returns is eligible.  (A file classified [UNKNOWN] that the
    scan filed under another key, the key [UNKNOWN] for one, is not
    eligible.) *)
Theorem eligible_pool (game_name system : str)
    (available_roms : gmap str (list Path.t)) :
  (forall p,
     In p (eligible system available_roms) <->
     In p (default [] (available_roms !! muos_folder system))
     /\ (detect_system_from_path p = muos_folder system
         \/ detect_system_from_path p = lit "UNKNOWN"))
  /\ find_rom_for_game game_name system available_roms
     = result_of
         (scan_scored
            (scored_pairs (game_variants game_name)
               (eligible system available_roms))
            None 0%Q)
  /\ (forall r,
        find_rom_for_game game_name system available_roms = Some r ->
        In r (eligible system available_roms)).
Proof.
  split; [apply in_eligible|]. split; [apply find_rom_for_game_scored|].
  apply find_rom_for_game_eligible.
Qed.

Lemma unknown_file_not_eligible :
  detect_system_from_path Sample.zelda_zip = lit "UNKNOWN"
  /\ Sample.library !! lit "UNKNOWN" = Some [Sample.zelda_zip]
  /\ normalize_name (Path.stem Sample.zelda_zip)
     = normalize_name (lit "Zelda")
  /\ eligible (lit "N64") Sample.library = []
  /\ find_rom_for_game (lit "Zelda") (lit "N64") Sample.library = None.
Proof. repeat split; vm_compute; reflexivity. Qed.

Example other_system_excluded :
  normalize_name (Path.stem Sample.sonic_rom)
  = normalize_name (lit "Sonic the Hedgehog")
  /\ find_rom_for_game (lit "Sonic the Hedgehog") (lit "Genesis")
       Sample.library
     = None
  /\ find_rom_for_game (lit "Sonic the Hedgehog") (lit "SNES")
       Sample.library
     = Some Sample.sonic_rom.
Proof. repeat split; vm_compute; reflexivity. Qed.


(** C2.  Whatever the index, a file [find_rom_for_game] returns is
    classified by [detect_system_from_path] into the canonical tag of the
    entry or into [UNKNOWN]. *)
Theorem platform_exclusivity (game_name system : str)
    (available_roms : gmap str (list Path.t)) (r : Path.t) :
  find_rom_for_game game_name system available_roms = Some r ->
  detect_system_from_path r = muos_folder system
  \/ detect_system_from_path r = lit "UNKNOWN".
Proof.
  intros H. apply find_rom_for_game_eligible in H.
  by apply in_eligible in H as [_ H].
Qed.

Lemma platform_exclusivity_witness :
  detect_system_from_path Sample.chrono_rom = muos_folder (lit "SNES")
  \/ detect_system_from_path Sample.chrono_rom = lit "UNKNOWN".
Proof.
  apply (platform_exclusivity (lit "Chrono Trigger") (lit "SNES")
           Sample.library Sample.chrono_rom).
  vm_compute. reflexivity.
Defined.


(** C5.  [find_rom_for_game] returns a file if and only if the best score
    over the pairs of a variant and an eligible file is at least 1/2. *)
Theorem acceptance_threshold (game_name system : str)
    (available_roms : gmap str (list Path.t)) :
  (exists r, find_rom_for_game game_name system available_roms = Some r)
  <-> (1 # 2 <= best_pair_score game_name system available_roms)%Q.
Proof.
  rewrite find_rom_for_game_scored. unfold best_pair_score.
  set (vs := game_variants game_name).
  set (files := eligible system available_roms).
  set (M := Qmax_list _).
  assert (Hub : forall p s, In (p, s) (scored_pairs vs files) -> (s <= M)%Q).
  { intros p s Hin. apply Qmax_list_ub, in_pair_scores. eauto. }
  destruct (scan_scored _ _ _) as [res|bm bs] eqn:E; cbn [result_of].
  - apply scan_scored_returned in E as (p & s & -> & Hin & Hs); [|done].
    split; [intros _|eauto].
    apply Qle_trans with s; [|by apply (Hub p)].
    by apply Qle_trans with 1%Q.
  - apply scan_scored_running in E as (Hle & Hall & Hlast).
    assert (HM : (M <= bs)%Q).
    { destruct (Qmax_list_cases
                  (flat_map (fun v => map (pair_score v) files) vs))
        as [H0|Hin]; fold M in H0 || fold M in Hin.
      - by rewrite H0.
      - apply in_pair_scores in Hin as (p & Hin). by apply (Hall p). }
    destruct bm as [p|].
    + destruct Hlast as [[? _]|(p' & Hin & _ & _)]; [done|].
      apply Hub in Hin.
      destruct (Qle_bool (1 # 2) bs) eqn:Eb.
      * apply Qle_bool_iff in Eb. split; [intros _|eauto].
        (* bs <= M *) by apply Qle_trans with bs.
      * apply Qle_bool_false in Eb. split; [by intros [r Hr]|].
        intros HhM. exfalso. apply (Qlt_irrefl bs).
        apply Qlt_le_trans with (1 # 2)%Q; [done|].
        by apply Qle_trans with M.
    + split; [by intros [r Hr]|]. intros HhM. exfalso.
      destruct Hlast as [[_ ->]|(p' & _ & ? & _)]; [|done].
      assert (H : (1 # 2 <= 0)%Q) by (by apply Qle_trans with M).
      by apply Qle_bool_iff in H.
Qed.

Example score_one_half_accepted :
  (best_pair_score (lit "Chrono Cross") (lit "SNES") Sample.library
   == 1 # 2)%Q
  /\ find_rom_for_game (lit "Chrono Cross") (lit "SNES") Sample.library
     = Some Sample.chrono_rom.
Proof. split; vm_compute; reflexivity. Qed.

Example score_one_third_refused :
  (best_pair_score (lit "Chrono Cross Gold") (lit "SNES") Sample.library
   == 1 # 3)%Q
  /\ find_rom_for_game (lit "Chrono Cross Gold") (lit "SNES")
       Sample.library
     = None.
Proof. split; vm_compute; reflexivity. Qed.


(** ** The scorer *)

Lemma ratio_bounds (n m : nat) :
  n <= m -> 0 < m ->
  (0 <= inject_Z (Z.of_nat n) / inject_Z (Z.of_nat m) <= 1)%Q.
Proof.
  intros Hnm Hm.
  assert (Hpos : (0 < inject_Z (Z.of_nat m))%Q).
  { change 0%Q with (inject_Z 0). rewrite <- Zlt_Qlt. lia. }
  split.
  - apply Qle_shift_div_l; [done|]. rewrite Qmult_0_l.
    change 0%Q with (inject_Z 0). rewrite <- Zle_Qle. lia.
  - apply Qle_shift_div_r; [done|]. rewrite Qmult_1_l.
    rewrite <- Zle_Qle. lia.
Qed.

Lemma overlap_bounds (a b : gset str) :
  a ≠ ∅ -> (0 <= overlap a b <= 1)%Q.
Proof.
  intros Ha. apply ratio_bounds.
  - etrans; [|apply Nat.le_max_l]. apply subseteq_size, intersection_subseteq_l.
  - assert (size a ≠ 0); [|lia].
    intros H0. apply Ha, leibniz_equiv. by apply size_empty_inv.
Qed.

(** C6.  The score of two strings lies between 0 and 1.  It is 1 when
    they are equal; otherwise 0.8 when the title of the entry occurs in
    the stem; otherwise 0.7 when the stem occurs in the title; otherwise
    0 when one of the two word sets is empty, and else the number of
    common words divided by the size of the larger word set, itself
    between 0 and 1. *)
Theorem match_score_tiers (game_normalized rom_normalized : str) :
  (0 <= match_score game_normalized rom_normalized <= 1)%Q
  /\ (game_normalized = rom_normalized ->
      match_score game_normalized rom_normalized = 1%Q)
  /\ (game_normalized <> rom_normalized ->
      contains rom_normalized game_normalized = true ->
      match_score game_normalized rom_normalized = (8 # 10)%Q)
  /\ (game_normalized <> rom_normalized ->
      contains rom_normalized game_normalized = false ->
      contains game_normalized rom_normalized = true ->
      match_score game_normalized rom_normalized = (7 # 10)%Q)
  /\ (game_normalized <> rom_normalized ->
      contains rom_normalized game_normalized = false ->
      contains game_normalized rom_normalized = false ->
      (words game_normalized = ∅ \/ words rom_normalized = ∅ ->
       match_score game_normalized rom_normalized = 0%Q)
      /\ (words game_normalized ≠ ∅ -> words rom_normalized ≠ ∅ ->
          (match_score game_normalized rom_normalized
           == overlap (words game_normalized) (words rom_normalized))%Q
          /\ (0 <= overlap (words game_normalized) (words rom_normalized)
              <= 1)%Q)).
Proof.
  unfold match_score. cbv zeta.
  fold (words game_normalized) (words rom_normalized).
  fold (overlap (words game_normalized) (words rom_normalized)).
  destruct (eqs game_normalized rom_normalized) eqn:Eeq.
  { apply eqs_true in Eeq. repeat split; done. }
  apply eqs_false in Eeq.
  destruct (contains rom_normalized game_normalized) eqn:E1.
  { repeat split; done. }
  destruct (contains game_normalized rom_normalized) eqn:E2.
  { repeat split; done. }
  destruct (bool_decide (words game_normalized ≠ ∅)) eqn:Eg;
    [apply bool_decide_eq_true in Eg|apply bool_decide_eq_false in Eg];
    cbn [andb].
  2: { repeat split; done. }
  destruct (bool_decide (words rom_normalized ≠ ∅)) eqn:Er;
    [apply bool_decide_eq_true in Er|apply bool_decide_eq_false in Er].
  2: { repeat split; done. }
  pose proof (overlap_bounds _ (words rom_normalized) Eg) as Hb.
  destruct (bool_decide (words game_normalized ∩ words rom_normalized ≠ ∅))
    eqn:Ec;
    [apply bool_decide_eq_true in Ec|apply bool_decide_eq_false in Ec].
  - repeat split; try done; try apply Hb. by intros [?|?].
  - assert (H0 : (overlap (words game_normalized) (words rom_normalized) == 0)%Q).
    { unfold overlap.
      assert (Hc : words game_normalized ∩ words rom_normalized = ∅)
        by (by destruct (decide (words game_normalized ∩ words rom_normalized = ∅))).
      rewrite Hc, size_empty. reflexivity. }
    repeat split; try done; try apply Hb; try (by intros [?|?]).
Qed.

Example match_score_samples :
  match_score (lit "chrono trigger") (lit "chrono trigger") = 1%Q
  /\ match_score (lit "sonic") (lit "sonic hedgehog") = (8 # 10)%Q
  /\ match_score (lit "sonic hedgehog 2") (lit "sonic hedgehog")
     = (7 # 10)%Q
  /\ (match_score (lit "a b c") (lit "c d") == 1 # 3)%Q
  /\ match_score (lit "mario") (lit "zelda") = 0%Q.
Proof. repeat split; vm_compute; reflexivity. Qed.


(** ** Entries whose name normalises to the empty string *)

Lemma match_score_empty (r : str) :
  match_score [] r = if eqs r [] then 1%Q else (8 # 10)%Q.
Proof.
  unfold match_score. destruct r as [|c r]; [reflexivity|].
  replace (eqs [] (c :: r)) with false by (symmetry; by apply eqs_false).
  replace (eqs (c :: r) []) with false by (symmetry; by apply eqs_false).
  by rewrite contains_nil.
Qed.

Lemma scan_scored_flat l e :
  Forall (fun ps => snd ps = (8 # 10)%Q) l ->
  scan_scored l (Some e) (8 # 10)%Q = Running (Some e) (8 # 10)%Q.
Proof.
  induction 1 as [|[p s] l Hs _ IH]; [done|]. simpl in Hs. subst s.
  cbn [scan_scored]. apply IH.
Qed.

Lemma scan_scored_flat_start l :
  Forall (fun ps => snd ps = (8 # 10)%Q) l ->
  scan_scored l None 0%Q
  = Running (head (map fst l)) (match l with [] => 0%Q | _ :: _ => (8 # 10)%Q end).
Proof.
  destruct 1 as [|[p s] l Hs Hl]; [done|]. simpl in Hs. subst s.
  cbn [scan_scored]. change (negb (Qle_bool (8 # 10) 0)) with true.
  change (Qle_bool 1 (8 # 10)) with false. cbn iota beta.
  by apply scan_scored_flat.
Qed.

Lemma scan_scored_first_exact l1 c0 l2 :
  Forall (fun ps => snd ps = (8 # 10)%Q) l1 ->
  scan_scored (l1 ++ (c0, 1%Q) :: l2) None 0%Q = Returned (Some c0).
Proof.
  intros Hl1. rewrite scan_scored_app, scan_scored_flat_start by done.
  by destruct l1.
Qed.

Lemma first_empty_stem_split files c0 :
  first_empty_stem files = Some c0 ->
  exists l1 l2, files = l1 ++ c0 :: l2
    /\ Forall (fun p => eqs (normalize_name (Path.stem p)) [] = false) l1
    /\ eqs (normalize_name (Path.stem c0)) [] = true.
Proof.
  unfold first_empty_stem.
  induction files as [|p files IH]; cbn [List.find]; [done|].
  destruct (eqs (normalize_name (Path.stem p)) []) eqn:E.
  - intros [= <-]. by exists [], files.
  - intros (l1 & l2 & -> & Hl1 & Hc)%IH. exists (p :: l1), l2.
    split; [done|]. split; [by constructor|done].
Qed.

Lemma first_empty_stem_none files :
  first_empty_stem files = None ->
  Forall (fun p => eqs (normalize_name (Path.stem p)) [] = false) files.
Proof.
  unfold first_empty_stem.
  induction files as [|p files IH]; cbn [List.find]; [by constructor|].
  destruct (eqs (normalize_name (Path.stem p)) []) eqn:E; [done|].
  intros H. constructor; auto.
Qed.

Lemma game_variants_last game_name :
  exists vs, game_variants game_name = vs ++ [game_name].
Proof. unfold game_variants. eauto. Qed.

(** C9, as amended.  When every variant of the name of an entry
    normalises to the empty string and there is an eligible file, a file
    scores 0.8, or 1 when its own stem normalises to the empty string
    too; [find_rom_for_game] returns the first eligible file of the
    latter kind when there is one, and the first eligible file
    otherwise. *)
Theorem empty_name_match (game_name system : str)
    (available_roms : gmap str (list Path.t)) :
  Forall (fun v => normalize_name v = []) (game_variants game_name) ->
  eligible system available_roms <> [] ->
  (forall v p,
     In v (game_variants game_name) ->
     pair_score v p
     = if eqs (normalize_name (Path.stem p)) [] then 1%Q else (8 # 10)%Q)
  /\ find_rom_for_game game_name system available_roms
     = match first_empty_stem (eligible system available_roms) with
       | Some p => Some p
       | None => head (eligible system available_roms)
       end.
Proof.
  intros Hvs Hne.
  assert (Hscore : forall v p, In v (game_variants game_name) ->
            pair_score v p
            = if eqs (normalize_name (Path.stem p)) [] then 1%Q else (8 # 10)%Q).
  { intros v p Hv. unfold pair_score.
    rewrite Forall_forall in Hvs. rewrite (Hvs v) by by apply list_elem_of_In.
    apply match_score_empty. }
  split; [done|].
  rewrite find_rom_for_game_scored.
  set (files := eligible system available_roms) in *.
  destruct (game_variants game_name) as [|v0 vs] eqn:Evs.
  { destruct (game_variants_last game_name) as [vs Hvs']. rewrite Evs in Hvs'.
    by destruct vs. }
  destruct (first_empty_stem files) as [c0|] eqn:Ef.
  - apply first_empty_stem_split in Ef as (l1 & l2 & Hfiles & Hl1 & Hc0).
    unfold scored_pairs. cbn [flat_map]. rewrite Hfiles, map_app.
    cbn [map]. rewrite (Hscore v0 c0), Hc0 by by left.
    rewrite <- app_assoc. cbn [app].
    rewrite scan_scored_first_exact; [done|].
    apply Forall_map. eapply Forall_impl; [exact Hl1|].
    intros p Hp. cbn [snd]. by rewrite (Hscore v0 p), Hp by by left.
  - apply first_empty_stem_none in Ef.
    assert (Hall : Forall (fun ps => snd ps = (8 # 10)%Q)
                     (scored_pairs (v0 :: vs) files)).
    { apply Forall_forall. intros [p s] Hin. cbn [snd].
      apply list_elem_of_In, in_scored_pairs in Hin as (v & Hv & Hp & ->).
      rewrite Hscore by done. rewrite Forall_forall in Ef.
      by rewrite (Ef p) by by apply list_elem_of_In. }
    rewrite scan_scored_flat_start by done.
    destruct files as [|e files']; [done|].
    unfold scored_pairs. cbn [flat_map map app head fst result_of].
    reflexivity.
Qed.

Lemma empty_name_match_witness :
  find_rom_for_game (lit "The") (lit "SNES") Sample.library
  = Some Sample.chrono_rom.
Proof.
  refine (eq_trans
            (proj2 (empty_name_match (lit "The") (lit "SNES")
                      Sample.library _ _)) _).
  - vm_compute. repeat constructor.
  - vm_compute. discriminate.
  - vm_compute. reflexivity.
Defined.

Lemma empty_name_not_first_file :
  normalize_name (lit "The") = []
  /\ eligible (lit "SNES") Sample.sfc_library
     = [Sample.mario_rom; Sample.tag_only_rom]
  /\ pair_score (lit "The") Sample.mario_rom = (8 # 10)%Q
  /\ pair_score (lit "The") Sample.tag_only_rom = 1%Q
  /\ find_rom_for_game (lit "The") (lit "SNES") Sample.sfc_library
     = Some Sample.tag_only_rom.
Proof. repeat split; vm_compute; reflexivity. Qed.

Example empty_name_with_slash :
  normalize_name (lit "(x) [Chrono/Sonic]") = []
  /\ game_variants (lit "(x) [Chrono/Sonic]")
     = [lit "(x) [Chrono"; lit "(x) Sonic]"; lit "(x) [Chrono/Sonic]"]
  /\ normalize_name (lit "(x) Sonic]") = lit "sonic]".
Proof. repeat split; vm_compute; reflexivity. Qed.


(** ** Title variants *)

Lemma contains_char (s : str) (c : ascii) :
  contains s [c] = true <-> In c s.
Proof.
  rewrite contains_spec. split.
  - intros (l1 & l2 & ->). apply in_app_iff. right. by left.
  - intros (l1 & l2 & ->)%in_split. by exists l1, l2.
Qed.

Lemma contains_char_false (s : str) (c : ascii) :
  contains s [c] = false <-> ~ In c s.
Proof.
  rewrite <- contains_char. by destruct (contains s [c]).
Qed.

Lemma rfind_none (c : ascii) (s : str) : rfind c s = None <-> ~ In c s.
Proof.
  induction s as [|x s IH]; cbn [rfind In]; [tauto|].
  destruct (rfind c s) as [i|].
  - split; [done|]. intros H. exfalso.
    assert (Hn : ~ In c s) by tauto. apply IH in Hn. done.
  - destruct (eqc x c) eqn:E.
    + apply eqc_true in E. split; [done|]. tauto.
    + apply eqc_false in E. split; [|done]. intros _ [?|?]; [done|].
      by apply (proj1 IH).
Qed.

Lemma rfind_last (c : ascii) (base tail : str) :
  ~ In c tail -> rfind c (base ++ c :: tail) = Some (length base).
Proof.
  intros Htail. induction base as [|x base IH]; cbn [app rfind length].
  - apply rfind_none in Htail. by rewrite Htail, eqc_refl.
  - by rewrite IH.
Qed.

Lemma rsplit1_last (c : ascii) (base tail : str) :
  ~ In c tail -> rsplit1 c (base ++ c :: tail) = Some (base, tail).
Proof.
  intros Htail. unfold rsplit1. rewrite rfind_last by done.
  f_equal. f_equal.
  - by rewrite take_app_length.
  - change (base ++ c :: tail) with (base ++ [c] ++ tail).
    rewrite app_assoc.
    replace (S (length base)) with (length (base ++ [c]))
      by (rewrite length_app; simpl; lia).
    by rewrite drop_app_length.
Qed.

Lemma rsplit1_none (c : ascii) (s : str) : ~ In c s -> rsplit1 c s = None.
Proof. intros H. unfold rsplit1. apply rfind_none in H. by rewrite H. Qed.

Lemma in_split_last (c : ascii) (s : str) :
  In c s -> exists u1 u2, s = u1 ++ c :: u2 /\ ~ In c u2.
Proof.
  induction s as [|x s IH]; [done|].
  destruct (in_dec ascii_dec c s) as [Hin|Hn].
  - intros _. destruct (IH Hin) as (u1 & u2 & -> & Hu2).
    by exists (x :: u1), u2.
  - intros [->|?]; [|done]. by exists [], s.
Qed.

Lemma game_variants_cases (game_name : str) :
  (~ In "/"%char game_name -> game_variants game_name = [game_name])
  /\ (exists vs, game_variants game_name = vs ++ [game_name])
  /\ (forall base tail,
        game_name = base ++ " "%char :: tail ->
        ~ In " "%char tail -> In "/"%char tail ->
        game_variants game_name
        = map (fun alt => if nonempty base then base ++ lit " " ++ alt
                          else alt)
            (split_on "/"%char tail)
          ++ [game_name])
  /\ (~ In " "%char game_name -> In "/"%char game_name ->
      game_variants game_name
      = split_on "/"%char game_name ++ [game_name])
  /\ (forall base tail,
        game_name = base ++ " "%char :: tail ->
        ~ In " "%char tail -> ~ In "/"%char tail ->
        game_variants game_name = [game_name]).
Proof.
  unfold game_variants. change (lit "/") with ["/"%char].
  split; [|split; [|split; [|split]]].
  - intros H. apply contains_char_false in H. by rewrite H.
  - eauto.
  - intros base tail -> Hsp Hsl.
    assert (Hin : In "/"%char (base ++ " "%char :: tail)).
    { apply in_app_iff. right. by right. }
    apply contains_char in Hin. rewrite Hin.
    rewrite rsplit1_last by done.
    apply contains_char in Hsl. by rewrite Hsl.
  - intros Hsp Hsl. rewrite rsplit1_none by done.
    apply contains_char in Hsl. rewrite Hsl.
    cbn [nonempty]. by rewrite map_id.
  - intros base tail -> Hsp Hsl.
    destruct (contains (base ++ " "%char :: tail) ["/"%char]); [|done].
    rewrite rsplit1_last by done.
    apply contains_char_false in Hsl. by rewrite Hsl.
Qed.

(** The variants of the program are those of the specification when no
    space follows the slash group. *)
Lemma variants_by_claim_agree (game_name : str) :
  (~ In "/"%char game_name ->
   variants_by_claim game_name = game_variants game_name)
  /\ (~ In " "%char game_name ->
      variants_by_claim game_name = game_variants game_name)
  /\ (forall base tail,
        game_name = base ++ " "%char :: tail ->
        ~ In " "%char tail -> In "/"%char tail ->
        variants_by_claim game_name = game_variants game_name).
Proof.
  destruct (game_variants_cases game_name) as (H1 & _ & H3 & H4 & _).
  split; [|split].
  - intros H. rewrite H1 by done. unfold variants_by_claim.
    apply rfind_none in H. by rewrite H.
  - intros Hsp. unfold variants_by_claim.
    destruct (rfind "/"%char game_name) as [k|] eqn:E.
    + assert (Hsl : In "/"%char game_name).
      { destruct (in_dec ascii_dec "/"%char game_name) as [|Hn]; [done|].
        apply rfind_none in Hn. congruence. }
      rewrite H4 by done.
      assert (Hn : ~ In " "%char (firstn k game_name)).
      { intros Hin. apply Hsp. rewrite <- (firstn_skipn k game_name).
        apply in_app_iff. by left. }
      apply rfind_none in Hn. by rewrite Hn.
    + apply rfind_none in E. by rewrite H1.
  - intros base tail Hname Hsp Hsl.
    rewrite (H3 base tail) by done. subst game_name.
    unfold variants_by_claim.
    apply in_split_last in Hsl as (u1 & u2 & -> & Hu2).
    replace (base ++ " "%char :: u1 ++ "/"%char :: u2)
      with ((base ++ " "%char :: u1) ++ "/"%char :: u2)
      by (by rewrite <- app_assoc).
    rewrite rfind_last by done.
    rewrite take_app_length.
    assert (Hu1 : ~ In " "%char u1).
    { intros Hin. apply Hsp. apply in_app_iff. by left. }
    rewrite rfind_last by done.
    rewrite <- app_assoc. cbn [app].
    rewrite take_app_length.
    change (base ++ " "%char :: u1 ++ "/"%char :: u2)
      with (base ++ [" "%char] ++ u1 ++ "/"%char :: u2).
    rewrite app_assoc.
    replace (S (length base)) with (length (base ++ [" "%char]))
      by (rewrite length_app; simpl; lia).
    by rewrite drop_app_length.
Qed.

(** C8, as amended.  A name without a slash has itself as only variant,
    and the name is always the last variant.  When the part of a name
    after its last space holds a slash, the variants before the name are
    the part before that space followed by a space and by each of the
    alternatives the slashes separate (the alternatives alone when that
    part is empty); a name without a space gives its alternatives alone.
    A name whose last space comes after its slashes has itself as only
    variant. *)
Theorem game_variants_shape (game_name : str) :
  (~ In "/"%char game_name -> game_variants game_name = [game_name])
  /\ (exists vs, game_variants game_name = vs ++ [game_name])
  /\ (forall base tail,
        game_name = base ++ " "%char :: tail ->
        ~ In " "%char tail -> In "/"%char tail ->
        game_variants game_name
        = map (fun alt => if nonempty base then base ++ lit " " ++ alt
                          else alt)
            (split_on "/"%char tail)
          ++ [game_name])
  /\ (~ In " "%char game_name -> In "/"%char game_name ->
      game_variants game_name
      = split_on "/"%char game_name ++ [game_name])
  /\ (forall base tail,
        game_name = base ++ " "%char :: tail ->
        ~ In " "%char tail -> ~ In "/"%char tail ->
        game_variants game_name = [game_name]).
Proof. apply game_variants_cases. Qed.

Example game_variants_pokemon :
  game_variants (lit "Pokemon Blue/Red")
  = [lit "Pokemon Blue"; lit "Pokemon Red"; lit "Pokemon Blue/Red"]
  /\ game_variants (lit "Blue/Red") = [lit "Blue"; lit "Red"; lit "Blue/Red"]
  /\ game_variants (lit "Chrono Trigger") = [lit "Chrono Trigger"].
Proof. repeat split; vm_compute; reflexivity. Qed.

Lemma slash_before_last_space :
  contains (lit "Pokemon Blue/Red Version") (lit "/") = true
  /\ game_variants (lit "Pokemon Blue/Red Version")
     = [lit "Pokemon Blue/Red Version"]
  /\ variants_by_claim (lit "Pokemon Blue/Red Version")
     = [lit "Pokemon Blue"; lit "Pokemon Red Version";
        lit "Pokemon Blue/Red Version"].
Proof. repeat split; vm_compute; reflexivity. Qed.


(** ** The name normaliser *)

Section Tags.

Variables op cl : ascii.

Lemma close_skip_tag (t : str) :
  (fix close (t : str) : option str :=
     match t with
     | [] => None
     | d :: t' =>
         if eqc d cl then Some (re_sub_tag op cl t')
         else if eqc d newline then None
         else close t'
     end) t
  = re_sub_tag op cl <$> skip_tag cl t.
Proof.
  induction t as [|d t IH]; [done|]. cbn [skip_tag].
  destruct (eqc d cl); [done|]. by destruct (eqc d newline).
Qed.

(** The equation of [re_sub_tag]. *)
Lemma re_sub_tag_cons (c : ascii) (r : str) :
  re_sub_tag op cl (c :: r)
  = if eqc c op then
      match skip_tag cl r with
      | Some r' => re_sub_tag op cl r'
      | None => c :: re_sub_tag op cl r
      end
    else c :: re_sub_tag op cl r.
Proof.
  cbn [re_sub_tag]. rewrite close_skip_tag.
  destruct (eqc c op); [|done]. by destruct (skip_tag cl r).
Qed.

Lemma skip_tag_some (t r' : str) :
  skip_tag cl t = Some r' -> exists m, t = m ++ cl :: r'.
Proof.
  revert r'. induction t as [|d t IH]; intros r'; cbn [skip_tag]; [done|].
  destruct (eqc d cl) eqn:E.
  - apply eqc_true in E as ->. intros [= ->]. by exists [].
  - destruct (eqc d newline); [done|].
    intros [m ->]%IH. by exists (d :: m).
Qed.

Lemma skip_tag_none (t : str) :
  skip_tag cl t = None -> ~ In newline t -> ~ In cl t.
Proof.
  induction t as [|d t IH]; cbn [skip_tag]; [tauto|].
  destruct (eqc d cl) eqn:E; [done|]. apply eqc_false in E.
  destruct (eqc d newline) eqn:En.
  - apply eqc_true in En as ->. intros _ Hn. exfalso. apply Hn. by left.
  - intros H Hn [?|Hin]; [done|]. apply IH; [done| |done].
    intros ?. apply Hn. by right.
Qed.

Lemma skip_tag_absent (t : str) : ~ In cl t -> skip_tag cl t = None.
Proof.
  induction t as [|d t IH]; cbn [skip_tag]; [done|]. intros Hn.
  destruct (eqc d cl) eqn:E.
  - apply eqc_true in E as ->. exfalso. apply Hn. by left.
  - destruct (eqc d newline); [done|]. apply IH. intros ?. apply Hn. by right.
Qed.

(** The text left is the text given with parts of it removed. *)
Lemma re_sub_tag_sublist (s : str) : re_sub_tag op cl s `sublist_of` s.
Proof.
  induction s as [s IH] using (induction_ltof1 _ (@length ascii)).
  unfold ltof in IH. destruct s as [|c r]; [done|].
  rewrite re_sub_tag_cons.
  destruct (eqc c op); [|by apply sublist_skip, IH; simpl; lia].
  destruct (skip_tag cl r) as [r'|] eqn:E;
    [|by apply sublist_skip, IH; simpl; lia].
  apply skip_tag_some in E as [m ->].
  apply sublist_cons. trans r'.
  - apply IH. cbn [length]. rewrite length_app. cbn [length]. lia.
  - apply sublist_inserts_l, sublist_cons. done.
Qed.

Lemma in_re_sub_tag (s : str) (c : ascii) :
  In c (re_sub_tag op cl s) -> In c s.
Proof.
  intros H%list_elem_of_In. apply list_elem_of_In.
  by apply (sublist_subseteq _ _ (re_sub_tag_sublist s)).
Qed.

Lemma sublist_pair (c : ascii) (t : str) :
  [op; cl] `sublist_of` c :: t <->
  [op; cl] `sublist_of` t \/ (c = op /\ In cl t).
Proof.
  rewrite sublist_cons_r. split.
  - intros [?|(l' & [= <- <-] & Hl)]; [by left|right].
    split; [done|]. apply list_elem_of_In.
    apply (sublist_subseteq _ _ Hl). by left.
  - intros [?|[-> Hin]]; [by left|right]. exists [cl]. split; [done|].
    apply list_elem_of_In, list_elem_of_split in Hin as (l1 & l2 & ->).
    apply sublist_inserts_l, sublist_skip, sublist_nil_l.
Qed.

(** After the substitution no pair is left, in a text of one line. *)
Lemma re_sub_tag_no_pair (s : str) :
  ~ In newline s -> no_pair op cl (re_sub_tag op cl s).
Proof.
  unfold no_pair.
  induction s as [s IH] using (induction_ltof1 _ (@length ascii)).
  unfold ltof in IH. destruct s as [|c r]; [by intros _ ?%sublist_nil_r|].
  intros Hnl. rewrite re_sub_tag_cons.
  assert (Hr : ~ In newline r) by (intros ?; apply Hnl; by right).
  assert (Hkeep : ~ [op; cl] `sublist_of` re_sub_tag op cl r)
    by (apply IH; [simpl; lia|done]).
  destruct (eqc c op) eqn:Ec.
  - destruct (skip_tag cl r) as [r'|] eqn:E.
    + apply skip_tag_some in E as [m ->]. apply IH.
      * cbn [length]. rewrite length_app. cbn [length]. lia.
      * intros ?. apply Hr, in_app_iff. right. by right.
    + rewrite sublist_pair. intros [?|[_ Hin]]; [done|].
      by apply in_re_sub_tag, (skip_tag_none _ E) in Hin.
  - apply eqc_false in Ec. rewrite sublist_pair. by intros [?|[? _]].
Qed.

(** A text without a pair is left as it is. *)
Lemma re_sub_tag_id (s : str) : no_pair op cl s -> re_sub_tag op cl s = s.
Proof.
  unfold no_pair. induction s as [|c r IH]; [done|].
  rewrite sublist_pair, re_sub_tag_cons. intros Hn.
  rewrite IH by tauto.
  destruct (eqc c op) eqn:Ec; [|done]. apply eqc_true in Ec.
  rewrite skip_tag_absent; [done|]. tauto.
Qed.

End Tags.

(** *** Characters *)

Lemma special_image (c : ascii) :
  brackets (remove_special [c]) = brackets [c]
  /\ Forall (fun d => special d = false) (remove_special [c])
  /\ (special c = false -> remove_special [c] = [c]).
Proof.
  each_char c; vm_compute; (split; [reflexivity|]);
    (split; [repeat constructor|]); (reflexivity || discriminate).
Qed.

Lemma lower_char_facts (c : ascii) :
  bracket (lower_char c) = bracket c
  /\ (bracket c = true -> lower_char c = c)
  /\ special (lower_char c) = special c
  /\ lower_char (lower_char c) = lower_char c.
Proof.
  each_char c; vm_compute; (split; [reflexivity|]);
    (split; [reflexivity || discriminate|]); split; reflexivity.
Qed.

Lemma space_not_bracket (c : ascii) : is_space c = true -> bracket c = false.
Proof. each_char c; vm_compute; (reflexivity || discriminate). Qed.

(** *** The bracket characters through the steps *)

Lemma filter_sublist (p : ascii -> bool) (s : str) :
  List.filter p s `sublist_of` s.
Proof.
  induction s as [|c s IH]; cbn [List.filter]; [done|].
  destruct (p c); [by apply sublist_skip|by apply sublist_cons].
Qed.

Lemma filter_sublist_mono (p : ascii -> bool) (s t : str) :
  s `sublist_of` t -> List.filter p s `sublist_of` List.filter p t.
Proof.
  induction 1 as [|c s t _ IH|c s t _ IH]; cbn [List.filter]; [done| |].
  - destruct (p c); [by apply sublist_skip|done].
  - destruct (p c); [by apply sublist_cons|done].
Qed.

Lemma no_pair_sublist (op cl : ascii) (s t : str) :
  s `sublist_of` t -> no_pair op cl t -> no_pair op cl s.
Proof. intros Hst Ht Hs. apply Ht. by etrans. Qed.

Lemma no_pair_brackets (op cl : ascii) (s t : str) :
  bracket op = true -> bracket cl = true ->
  brackets s `sublist_of` brackets t ->
  no_pair op cl t -> no_pair op cl s.
Proof.
  intros Hop Hcl Hst Ht Hs. apply Ht.
  trans (brackets t); [|apply filter_sublist].
  trans (brackets s); [|done].
  apply (filter_sublist_mono bracket) in Hs.
  unfold brackets. by cbn [List.filter] in Hs; rewrite Hop, Hcl in Hs.
Qed.

Lemma brackets_app (s t : str) : brackets (s ++ t) = brackets s ++ brackets t.
Proof. apply List.filter_app. Qed.

Lemma remove_special_app (s t : str) :
  remove_special (s ++ t) = remove_special s ++ remove_special t.
Proof. unfold remove_special, replace. by rewrite !flat_map_app. Qed.

Lemma remove_special_cons (c : ascii) (s : str) :
  remove_special (c :: s) = remove_special [c] ++ remove_special s.
Proof. apply (remove_special_app [c] s). Qed.

Lemma brackets_remove_special (s : str) :
  brackets (remove_special s) = brackets s.
Proof.
  induction s as [|c s IH]; [done|].
  rewrite remove_special_cons, brackets_app, IH.
  destruct (special_image c) as (-> & _ & _).
  unfold brackets. cbn [List.filter]. by destruct (bracket c).
Qed.

Lemma remove_special_plain (s : str) :
  Forall (fun d => special d = false) (remove_special s).
Proof.
  induction s as [|c s IH]; [constructor|].
  rewrite remove_special_cons. apply Forall_app. split; [|done].
  by destruct (special_image c) as (_ & ? & _).
Qed.

Lemma remove_special_id (s : str) :
  Forall (fun d => special d = false) s -> remove_special s = s.
Proof.
  induction 1 as [|c s Hc _ IH]; [done|].
  rewrite remove_special_cons, IH.
  destruct (special_image c) as (_ & _ & ->); done.
Qed.

Lemma brackets_lower (s : str) : brackets (lower s) = brackets s.
Proof.
  induction s as [|c s IH]; [done|].
  unfold brackets, lower in *. cbn [map List.filter].
  destruct (lower_char_facts c) as (-> & Hfix & _).
  destruct (bracket c) eqn:E; [|done]. by rewrite Hfix, IH.
Qed.

Lemma lower_id (s : str) : Forall (fun c => lower_char c = c) s -> lower s = s.
Proof.
  induction 1 as [|c s Hc _ IH]; [done|].
  unfold lower in *. cbn [map]. by rewrite Hc, IH.
Qed.

Lemma brackets_split (s : str) :
  concat (map brackets (split_by is_space s)) = brackets s.
Proof.
  induction s as [|c s IH]; [done|]. cbn [split_by].
  unfold brackets in *. cbn [List.filter].
  destruct (is_space c) eqn:E.
  - rewrite (space_not_bracket c E). cbn [map concat app List.filter]. done.
  - pose proof (split_by_not_nil is_space s) as Hne.
    destruct (split_by is_space s) as [|w ws]; [done|].
    cbn [map concat List.filter] in *. rewrite <- IH.
    by destruct (bracket c).
Qed.

Lemma brackets_join (ws : list str) :
  brackets (join (lit " ") ws) = concat (map brackets ws).
Proof.
  induction ws as [|w ws IH]; [done|]. destruct ws as [|w' ws].
  - cbn [join map concat]. by rewrite app_nil_r.
  - change (join (lit " ") (w :: w' :: ws))
      with (w ++ lit " " ++ join (lit " ") (w' :: ws)).
    rewrite !brackets_app, IH. done.
Qed.

Lemma concat_map_sublist (f : str -> str) (ws vs : list str) :
  ws `sublist_of` vs -> concat (map f ws) `sublist_of` concat (map f vs).
Proof.
  induction 1 as [|w ws vs _ IH|w ws vs _ IH]; cbn [map concat]; [done| |].
  - by apply sublist_app.
  - by apply sublist_inserts_l.
Qed.

Lemma list_filter_sublist {A} (p : A -> bool) (l : list A) :
  List.filter p l `sublist_of` l.
Proof.
  induction l as [|x l IH]; cbn [List.filter]; [done|].
  destruct (p x); [by apply sublist_skip|by apply sublist_cons].
Qed.

(** *** Words *)

Lemma split_by_pieces (p : ascii -> bool) (s w : str) :
  In w (split_by p s) ->
  Forall (fun c => p c = false /\ In c s) w.
Proof.
  revert w. induction s as [|c s IH]; intros w; cbn [split_by].
  - intros [<-|[]]. constructor.
  - destruct (p c) eqn:E.
    + intros [<-|Hin]; [constructor|].
      eapply Forall_impl; [by apply IH|]. intros d [? ?]. split; [done|by right].
    + pose proof (split_by_not_nil p s) as Hne.
      destruct (split_by p s) as [|w0 ws]; [done|].
      intros [<-|Hin].
      * constructor; [split; [done|by left]|].
        eapply Forall_impl; [apply IH; by left|].
        intros d [? ?]. split; [done|by right].
      * eapply Forall_impl; [apply IH; by right|].
        intros d [? ?]. split; [done|by right].
Qed.

Lemma join_cons (w : str) (ws : list str) :
  ws <> [] -> join (lit " ") (w :: ws) = w ++ " "%char :: join (lit " ") ws.
Proof. by destruct ws. Qed.

Lemma lstrip_id (s : str) :
  (forall c r, s = c :: r -> is_space c = false) -> lstrip s = s.
Proof. destruct s as [|c r]; [done|]. intros H. cbn [lstrip]. by rewrite (H c r). Qed.

Lemma strip_id (s : str) :
  (forall c r, s = c :: r -> is_space c = false) ->
  (forall c r, s = r ++ [c] -> is_space c = false) ->
  strip s = s.
Proof.
  intros Hhd Htl. unfold strip. rewrite (lstrip_id s) by done.
  rewrite lstrip_id; [apply rev_involutive|].
  intros c r Hrev. apply (Htl c (rev r)).
  rewrite <- (rev_involutive s), Hrev. done.
Qed.

(** *** Normal forms *)

Lemma join_chars (ws : list str) (c : ascii) :
  In c (join (lit " ") ws) -> c = " "%char \/ exists w, In w ws /\ In c w.
Proof.
  induction ws as [|w ws IH]; [done|]. destruct ws as [|w' ws].
  - cbn [join]. intros Hin. right. exists w. split; [by left|done].
  - rewrite join_cons by done. rewrite in_app_iff. cbn [In].
    intros [Hin|[<-|Hin]]; [right|by left|].
    + exists w. split; [by left|done].
    + destruct (IH Hin) as [?|(w0 & Hw0 & Hc)]; [by left|right].
      exists w0. split; [by right|done].
Qed.

Lemma join_plain (ws : list str) :
  Forall word_ok ws ->
  Forall (fun c => special c = false /\ lower_char c = c) (join (lit " ") ws).
Proof.
  intros Hws. apply Forall_forall. intros c Hin%list_elem_of_In%join_chars.
  destruct Hin as [->|(w & Hw & Hc)]; [by split|].
  rewrite Forall_forall in Hws.
  destruct (Hws w) as [_ Hplain]; [by apply list_elem_of_In|].
  rewrite Forall_forall in Hplain.
  destruct (Hplain c) as (_ & ? & ?); [by apply list_elem_of_In|done].
Qed.

Lemma split_ws_join (ws : list str) :
  Forall word_ok ws -> split_ws (join (lit " ") ws) = ws.
Proof.
  intros Hws. unfold split_ws. destruct ws as [|w ws]; [done|].
  change (lit " ") with [" "%char]. rewrite split_by_join; [|done|done|].
  - apply forallb_filter_id, forallb_forall. intros w0 Hin.
    rewrite Forall_forall in Hws.
    destruct (Hws w0) as [Hne _]; [by apply list_elem_of_In|]. by destruct w0.
  - eapply Forall_impl; [exact Hws|]. intros w0 [_ Hplain].
    eapply Forall_impl; [exact Hplain|]. by intros c (? & _).
Qed.

Lemma join_first (ws : list str) (c : ascii) (r : str) :
  Forall word_ok ws -> join (lit " ") ws = c :: r -> is_space c = false.
Proof.
  destruct 1 as [|w ws [Hne Hplain] Hws]; [done|].
  destruct w as [|c0 w]; [done|].
  apply Forall_cons in Hplain as [(? & _) _].
  destruct ws; [by intros [= <- _]|].
  rewrite join_cons by done. by intros [= <- _].
Qed.

Lemma join_last (ws : list str) (c : ascii) (r : str) :
  Forall word_ok ws -> join (lit " ") ws = r ++ [c] -> is_space c = false.
Proof.
  intros Hws. revert r. induction Hws as [|w ws [Hne Hplain] Hws IH]; intros r.
  - by destruct r.
  - destruct ws as [|w' ws].
    + cbn [join]. intros ->. apply Forall_app in Hplain as [_ Hc].
      by apply Forall_cons in Hc as [(? & _) _].
    + rewrite join_cons by done.
      destruct (exists_last (l := join (lit " ") (w' :: ws))) as (r' & c' & Hj).
      { inversion Hws as [|? ? [Hne' _] _]. destruct w' as [|d w']; [done|].
        destruct ws; [done|]. rewrite join_cons by done. done. }
      rewrite Hj. intros Heq.
      change (w ++ " "%char :: r' ++ [c']) with (w ++ (" "%char :: r') ++ [c']) in Heq.
      rewrite app_assoc in Heq. apply app_inj_tail in Heq as [_ ->].
      by apply (IH r').
Qed.

Lemma strip_join (ws : list str) :
  Forall word_ok ws -> strip (join (lit " ") ws) = join (lit " ") ws.
Proof.
  intros Hws. apply strip_id.
  - intros c r. by apply join_first.
  - intros c r. by apply join_last.
Qed.

(** A normal form is left as it is. *)
Lemma normalize_normal_form (ws : list str) :
  normal_form ws -> normalize_name (join (lit " ") ws) = join (lit " ") ws.
Proof.
  intros (Hws & Hstop & H1 & H2 & H3). unfold normalize_name, remove_tags.
  cbv zeta.
  rewrite (re_sub_tag_id "["%char "]"%char) by done.
  rewrite (re_sub_tag_id "("%char ")"%char) by done.
  rewrite (re_sub_tag_id "{"%char "}"%char) by done.
  pose proof (join_plain ws Hws) as Hplain.
  rewrite remove_special_id
    by (eapply Forall_impl; [exact Hplain|]; by intros c [? _]).
  rewrite lower_id
    by (eapply Forall_impl; [exact Hplain|]; by intros c [_ ?]).
  rewrite split_ws_join by done.
  rewrite forallb_filter_id; [by apply strip_join|].
  apply forallb_forall. intros w Hin. rewrite Forall_forall in Hstop.
  by apply Hstop, list_elem_of_In.
Qed.

(** The normaliser yields a normal form, on a text of one line. *)
Lemma normalize_is_normal_form (s : str) :
  ~ In newline s ->
  exists ws, normal_form ws /\ normalize_name s = join (lit " ") ws.
Proof.
  intros Hnl. unfold normalize_name. cbv zeta.
  set (x := remove_tags s).
  set (t := lower (remove_special x)).
  set (ws := List.filter not_stop_word (split_ws t)).
  assert (Hsub : ws `sublist_of` split_by is_space t).
  { unfold ws, split_ws. etrans; apply list_filter_sublist. }
  assert (Hws : Forall word_ok ws).
  { apply Forall_forall. intros w Hin%list_elem_of_In.
    apply filter_In in Hin as [Hin _]. unfold split_ws in Hin.
    apply filter_In in Hin as [Hin Hne]. split; [by destruct w|].
    eapply Forall_impl; [apply (split_by_pieces _ _ _ Hin)|].
    intros c [Hsp Hc]. unfold t, lower in Hc.
    apply in_map_iff in Hc as (c0 & <- & Hc0).
    destruct (lower_char_facts c0) as (_ & _ & Hspec & Hlow).
    split; [done|]. split; [|done]. rewrite Hspec.
    pose proof (remove_special_plain x) as Hx. rewrite Forall_forall in Hx.
    by apply Hx, list_elem_of_In. }
  assert (Hbr : brackets (join (lit " ") ws) `sublist_of` brackets x).
  { rewrite brackets_join.
    rewrite <- (brackets_remove_special x), <- (brackets_lower (remove_special x)).
    fold t. rewrite <- (brackets_split t). by apply concat_map_sublist. }
  assert (Hnl1 : ~ In newline (re_sub_tag "["%char "]"%char s))
    by (intros ?%in_re_sub_tag; done).
  assert (Hnl2 : ~ In newline
            (re_sub_tag "("%char ")"%char (re_sub_tag "["%char "]"%char s)))
    by (intros ?%in_re_sub_tag; done).
  exists ws. split; [|by apply strip_join].
  split; [done|]. split.
  { apply Forall_forall. intros w Hin%list_elem_of_In.
    by apply filter_In in Hin as [_ ?]. }
  split; [|split].
  - apply (no_pair_brackets _ _ _ x); [done..|]. unfold x, remove_tags.
    eapply no_pair_sublist; [apply re_sub_tag_sublist|].
    eapply no_pair_sublist; [apply re_sub_tag_sublist|].
    by apply re_sub_tag_no_pair.
  - apply (no_pair_brackets _ _ _ x); [done..|]. unfold x, remove_tags.
    eapply no_pair_sublist; [apply re_sub_tag_sublist|].
    by apply re_sub_tag_no_pair.
  - apply (no_pair_brackets _ _ _ x); [done..|]. unfold x, remove_tags.
    by apply re_sub_tag_no_pair.
Qed.

(** C4, as amended.  On a string without a line feed, normalising twice
    gives what normalising once gives. *)
Theorem normalize_name_idempotent (s : str) :
  ~ In newline s ->
  normalize_name (normalize_name s) = normalize_name s.
Proof.
  intros (ws & Hnf & ->)%normalize_is_normal_form.
  by apply normalize_normal_form.
Qed.

Lemma normalize_name_idempotent_witness :
  normalize_name (normalize_name (lit "Super Mario Bros. 3 (USA) [!]"))
  = normalize_name (lit "Super Mario Bros. 3 (USA) [!]").
Proof.
  apply (normalize_name_idempotent (lit "Super Mario Bros. 3 (USA) [!]")).
  not_in_text.
Defined.

Example normalize_name_mario :
  normalize_name (lit "Super Mario Bros. 3 (USA) [!]")
  = lit "super mario bros 3".
Proof. vm_compute. reflexivity. Qed.

Lemma normalize_name_two_lines :
  normalize_name Sample.two_lines = lit "[ ]"
  /\ normalize_name (normalize_name Sample.two_lines) = []
  /\ normalize_name (normalize_name Sample.two_lines)
     <> normalize_name Sample.two_lines.
Proof. repeat split; [vm_compute; reflexivity..|vm_compute; discriminate]. Qed.


(** ** The batch *)

Import Organizer.


(** C3, as amended.  The loop of [organize] has no handler: when the
    entries before an entry are processed without an exception and the
    evaluation of that entry raises, the exception is the outcome of the
    whole loop, whatever entries follow; none of them is processed. *)
Theorem exception_leaves_the_batch (before : list game) (g : game)
    (after : list game) (available_roms : gmap str (list Path.t))
    (dir : Path.t) (w w1 : world) (e : exn) :
  process_games before available_roms dir w = inr w1 ->
  process_game g available_roms dir w1 = inl e ->
  process_games (before ++ g :: after) available_roms dir w = inl e.
Proof.
  revert w. induction before as [|g0 before IH]; intros w;
    cbn [app process_games].
  - intros [= ->] Hg. by rewrite Hg.
  - destruct (process_game g0 available_roms dir w) as [e0|w0]; [done|].
    apply IH.
Qed.

Lemma exception_leaves_the_batch_witness :
  process_games ([] ++ Sample.sega_cd :: [Sample.chrono]) Sample.library
    Sample.roms_dir Sample.fresh_output
  = inl (FileNotFoundError
           (Path.of_str (lit "muOS_Complete/Roms/Sega CD/Mega CD"))).
Proof.
  apply (exception_leaves_the_batch [] Sample.sega_cd [Sample.chrono]
           Sample.library Sample.roms_dir Sample.fresh_output
           Sample.fresh_output);
    vm_compute; reflexivity.
Defined.

(** When no entry raises, the loop processes every entry. *)
Lemma no_exception_all_processed games available_roms dir w w' :
  process_games games available_roms dir w = inr w' ->
  w' = process_games_skipping games available_roms dir w.
Proof.
  revert w. induction games as [|g games IH]; intros w;
    cbn [process_games process_games_skipping].
  - by intros [= ->].
  - destruct (process_game g available_roms dir w) as [e0|w0]; [done|].
    apply IH.
Qed.

Lemma batch_aborted_by_one_entry :
  process_games [Sample.sega_cd; Sample.chrono] Sample.library
    Sample.roms_dir Sample.fresh_output
  = inl (FileNotFoundError
           (Path.of_str (lit "muOS_Complete/Roms/Sega CD/Mega CD")))
  /\ printed (process_games_skipping [Sample.sega_cd; Sample.chrono]
                Sample.library Sample.roms_dir Sample.fresh_output)
     = [Found (lit "Chrono Trigger") (lit "SNES") Sample.chrono_rom]
  /\ process_games [Sample.chrono] Sample.library Sample.roms_dir
       Sample.fresh_output
     = inr (process_games_skipping [Sample.sega_cd; Sample.chrono]
              Sample.library Sample.roms_dir Sample.fresh_output).
Proof. repeat split; vm_compute; reflexivity. Qed.

(** ** More on the classifier *)

Ltac in_literals := cbn [In]; repeat (first [left; reflexivity | right]).

Lemma detect_in_system_tags (p : Path.t) :
  In (detect_system_from_path p) system_tags.
Proof.
  unfold detect_system_from_path, system_tags. cbv zeta.
  repeat match goal with
  | |- In (if ?b then _ else _) _ => destruct b; [in_literals|]
  end.
  in_literals.
Qed.

(** X1.  The classifier has a closed vocabulary: for every path,
    [detect_system_from_path] returns one of the sixteen tags of
    [system_tags], and unless that tag is UNKNOWN the two artwork tables
    of [SkyscraperWrapper] both hold a non-empty name for it, so that
    [scrape_system_artwork] does not give up at its table test. *)
Theorem detect_closed_vocabulary (p : Path.t) :
  In (detect_system_from_path p) system_tags
  /\ (detect_system_from_path p = lit "UNKNOWN"
      \/ exists names, artwork_names (detect_system_from_path p) = Some names).
Proof.
  split; [apply detect_in_system_tags|].
  pose proof (detect_in_system_tags p) as H. unfold system_tags in H.
  cbn [In] in H.
  repeat (destruct H as [<-|H];
          [first [by left | right; eexists; vm_compute; reflexivity]|]).
  destruct H.
Qed.

Lemma folder_tag_none_inv (p : Path.t) (a : str) :
  folder_tag p = None -> In a folder_aliases ->
  a ∉ map upper (Path.parts p).
Proof.
  intros Hnone Ha Hin.
  destruct (folder_tag_complete p a Ha Hin) as [tag Htag]. congruence.
Qed.

(** X2.  The extension rules of the classifier stay within the allow
    list of [is_rom_file]: when no component of a path is a folder alias
    and [detect_system_from_path] still returns a tag other than UNKNOWN,
    the lower-cased extension of the path is one [is_rom_file] accepts. *)
Theorem extension_rule_within_allow_list (p : Path.t) :
  folder_tag p = None ->
  detect_system_from_path p <> lit "UNKNOWN" ->
  mem (lower (Path.suffix p)) rom_extensions = true.
Proof.
  intros Hnone. pose proof (fun a => folder_tag_none_inv p a Hnone) as Hno.
  unfold detect_system_from_path. cbv zeta.
  repeat match goal with
  | |- context [mem ?a (map upper ?l)] =>
      rewrite (proj2 (mem_false a (map upper l)))
        by (apply Hno; vm_compute; tauto)
  end.
  cbn [orb andb negb].
  generalize (lower (Path.suffix p)) as ext. intros ext.
  repeat match goal with
  | |- context [if mem ext ?l then _ else _] =>
      let E := fresh "E" in
      destruct (mem ext l) eqn:E;
      [ intros _; apply mem_true in E;
        repeat (apply elem_of_cons in E as [->|E]; [vm_compute; reflexivity|]);
        by apply elem_of_nil in E | clear E ]
  | |- context [if eqs ext ?l then _ else _] =>
      let E := fresh "E" in
      destruct (eqs ext l) eqn:E;
      [ intros _; apply eqs_true in E; subst ext; vm_compute; reflexivity
      | clear E ]
  | |- context [if mem ext ?l && ?c then _ else _] =>
      let E := fresh "E" in
      destruct (mem ext l) eqn:E; cbn [andb];
      [ destruct c; [|done]; intros _; apply mem_true in E;
        repeat (apply elem_of_cons in E as [->|E]; [vm_compute; reflexivity|]);
        by apply elem_of_nil in E | clear E ]
  end.
  done.
Qed.

Lemma extension_rule_within_allow_list_witness :
  mem (lower (Path.suffix (Path.of_str (lit "roms/misc/Zelda.gba"))))
    rom_extensions = true.
Proof.
  apply (extension_rule_within_allow_list
           (Path.of_str (lit "roms/misc/Zelda.gba"))).
  - vm_compute. reflexivity.
  - vm_compute. discriminate.
Defined.

(** X3.  [scrape_system_artwork] passes its table test for a folder
    name exactly when the name is one of the fifteen tags the classifier
    can return besides UNKNOWN; for every other name (NGP, WS, PSP, a raw
    label of the game list) it returns without scraping. *)
Theorem artwork_only_for_classifier_tags (muos_system : str) :
  is_Some (artwork_names muos_system)
  <-> In muos_system system_tags /\ muos_system <> lit "UNKNOWN".
Proof.
  split.
  - intros [names H]. unfold artwork_names in H. cbv zeta in H.
    destruct (platform_map !! muos_system) as [sky|] eqn:E; [|done].
    clear H. apply elem_of_list_to_map_2, list_elem_of_In in E.
    cbn [In] in E.
    repeat (destruct E as [[= <- _]|E];
            [split; [in_literals|discriminate]|]).
    destruct E.
  - intros [Hin Hne]. unfold system_tags in Hin. cbn [In] in Hin.
    repeat (destruct Hin as [<-|Hin];
            [first [done | eexists; vm_compute; reflexivity]|]).
    destruct Hin.
Qed.

(** ** The candidate index *)

Lemma index_append_lookup (k : str) (f : Path.t)
    (idx : gmap str (list Path.t)) (k' : str) :
  default [] (index_append k f idx !! k')
  = default [] (idx !! k') ++ (if eqs k k' then [f] else []).
Proof.
  unfold index_append. destruct (eqs k k') eqn:E.
  - apply eqs_true in E as ->. by rewrite lookup_insert_eq.
  - apply eqs_false in E. rewrite lookup_insert_ne by done.
    by rewrite app_nil_r.
Qed.

Lemma index_append_nonempty (k : str) (f : Path.t)
    (idx : gmap str (list Path.t)) :
  (forall k' : str, idx !! k' <> Some []) ->
  forall k' : str, index_append k f idx !! k' <> Some [].
Proof.
  intros Hidx k'. unfold index_append.
  destruct (decide (k = k')) as [->|Hne].
  - rewrite lookup_insert_eq. intros [= H]. by destruct (default [] _).
  - by rewrite lookup_insert_ne.
Qed.

Lemma scan_into_group (idx : gmap str (list Path.t))
    (found : list Path.t) (k : str) :
  default [] (scan_into idx found !! k)
  = default [] (idx !! k) ++ roms_of_system k found.
Proof.
  unfold scan_into, roms_of_system. revert idx.
  induction found as [|f found IH]; intros idx; cbn [fold_left List.filter].
  - by rewrite app_nil_r.
  - rewrite IH. destruct (is_rom_file f); cbn [andb]; [|done].
    rewrite index_append_lookup.
    destruct (eqs (detect_system_from_path f) k); cbn [app].
    + by rewrite <- app_assoc.
    + by rewrite app_nil_r.
Qed.

Lemma scan_into_nonempty (idx : gmap str (list Path.t))
    (found : list Path.t) :
  (forall k : str, idx !! k <> Some []) ->
  forall k : str, scan_into idx found !! k <> Some [].
Proof.
  unfold scan_into. revert idx.
  induction found as [|f found IH]; intros idx Hidx; cbn [fold_left]; [done|].
  apply IH. destruct (is_rom_file f); [|done].
  by apply index_append_nonempty.
Qed.

(** X4.  The index [scan_rom_directories] builds holds, under a key,
    exactly the files of the walk that [is_rom_file] accepts and
    [detect_system_from_path] classifies as that key, in the order of the
    walk; a key with no such file is absent, so no group of the index is
    empty. *)
Theorem scan_rom_directories_groups (found : list Path.t) (k : str) :
  scan_rom_directories found !! k
  = match roms_of_system k found with
    | [] => None
    | f :: fs => Some (f :: fs)
    end.
Proof.
  pose proof (scan_into_group ∅ found k) as Hgroup.
  pose proof (scan_into_nonempty ∅ found) as Hne.
  change (scan_into ∅ found) with (scan_rom_directories found) in *.
  rewrite lookup_empty in Hgroup. cbn [default app] in Hgroup.
  specialize (Hne (fun k' => ltac:(by rewrite lookup_empty)) k).
  destruct (scan_rom_directories found !! k) as [l|]; cbn [default] in Hgroup.
  - rewrite <- Hgroup. by destruct l.
  - by rewrite <- Hgroup.
Qed.

Lemma scan_folder_spec (k : str) (files : list Path.t)
    (idx : gmap str (list Path.t)) (n : nat) :
  snd (scan_folder k files (idx, n))
  = n + length (List.filter is_rom_file files)
  /\ (forall k' : str,
        default [] (fst (scan_folder k files (idx, n)) !! k')
        = default [] (idx !! k')
          ++ (if eqs k k' then List.filter is_rom_file files else []))
  /\ (forall k' : str,
        is_Some (idx !! k') ->
        is_Some (fst (scan_folder k files (idx, n)) !! k')).
Proof.
  unfold scan_folder. revert idx n.
  induction files as [|f files IH]; intros idx n;
    cbn [fold_left List.filter length fst snd].
  - split; [lia|]. split; [|done]. intros k'.
    destruct (eqs k k'); by rewrite app_nil_r.
  - destruct (is_rom_file f) eqn:Ef.
    + destruct (IH (index_append k f idx) (S n)) as (Hn & Hg & Hs).
      split; [cbn [length]; lia|]. split.
      * intros k'. rewrite Hg, index_append_lookup, <- app_assoc.
        by destruct (eqs k k').
      * intros k' Hk'. apply Hs. unfold index_append.
        destruct (decide (k = k')) as [->|Hne];
          [by rewrite lookup_insert_eq|by rewrite lookup_insert_ne].
    + apply IH.
Qed.

Lemma scan_output_from_spec (listing : list (str * list Path.t))
    (idx : gmap str (list Path.t)) (n : nat) :
  snd (scan_output_from (idx, n) listing)
  = n + length (List.filter is_rom_file (concat (map snd listing)))
  /\ (forall k : str,
        default [] (fst (scan_output_from (idx, n) listing) !! k)
        = default [] (idx !! k) ++ listed_roms k listing)
  /\ (forall k : str,
        is_Some (idx !! k) \/ In k (map fst listing) ->
        is_Some (fst (scan_output_from (idx, n) listing) !! k)).
Proof.
  unfold scan_output_from, listed_roms. revert idx n.
  induction listing as [|[k0 files] listing IH]; intros idx n;
    cbn [fold_left map concat List.filter length fst snd].
  - split; [lia|]. split; [intros k; by rewrite app_nil_r|].
    by intros k [?|[]].
  - set (idx0 := match idx !! k0 with
                 | Some _ => idx
                 | None => <[k0:=[]]> idx
                 end).
    assert (Hidx0 : forall k : str, default [] (idx0 !! k) = default [] (idx !! k)).
    { intros k. unfold idx0. destruct (idx !! k0) eqn:E; [done|].
      destruct (decide (k0 = k)) as [->|Hne];
        [by rewrite lookup_insert_eq, E|by rewrite lookup_insert_ne]. }
    assert (Hsome0 : forall k : str,
              is_Some (idx !! k) \/ k0 = k -> is_Some (idx0 !! k)).
    { intros k. unfold idx0. destruct (idx !! k0) eqn:E.
      - intros [?|<-]; [done|by rewrite E].
      - destruct (decide (k0 = k)) as [->|Hne];
          [by rewrite lookup_insert_eq|rewrite lookup_insert_ne by done].
        by intros [?|?]. }
    destruct (scan_folder_spec k0 files idx0 n) as (Hn & Hg & Hs).
    destruct (scan_folder k0 files (idx0, n)) as [idx1 n1] eqn:E1.
    cbn [fst snd] in *.
    destruct (IH idx1 n1) as (Hn' & Hg' & Hs').
    split; [|split].
    + rewrite Hn', Hn, List.filter_app, length_app. lia.
    + intros k. rewrite Hg', Hg, Hidx0, <- app_assoc. f_equal.
      cbn [fst]. destruct (eqs k0 k); cbn [map concat snd app];
        [by rewrite List.filter_app|done].
    + intros k Hk. apply Hs'.
      destruct Hk as [Hk|[<-|Hk]]; [left|left|by right].
      * apply Hs, Hsome0. by left.
      * apply Hs, Hsome0. by right.
Qed.

(** X5.  [scan_output_directory] returns the number of files of the
    listed folders that [is_rom_file] accepts; under every key, the
    updated index holds the files it held before, followed by the accepted
    files of the folders of that name, in order, whatever their extension
    or path says of their system; and every key of the old index and every
    listed folder name is a key afterwards. *)
Theorem scan_output_directory_groups
    (roms_by_system : gmap str (list Path.t))
    (listing : list (str * list Path.t)) :
  snd (scan_output_directory roms_by_system listing)
  = length (List.filter is_rom_file (concat (map snd listing)))
  /\ (forall k : str,
        default [] (fst (scan_output_directory roms_by_system listing) !! k)
        = default [] (roms_by_system !! k) ++ listed_roms k listing)
  /\ (forall k : str,
        is_Some (roms_by_system !! k) \/ In k (map fst listing) ->
        is_Some (fst (scan_output_directory roms_by_system listing) !! k)).
Proof.
  change (scan_output_directory roms_by_system listing)
    with (scan_output_from (roms_by_system, 0) listing).
  apply (scan_output_from_spec listing roms_by_system 0).
Qed.

(** ** The size of the index *)

Lemma size_list_to_set_le (l : list str) :
  size (list_to_set l : gset str) <= length l.
Proof.
  induction l as [|x l IH];
    [change (size (∅ : gset str) <= 0); by rewrite size_empty|].
  cbn [list_to_set length]. rewrite size_union_alt, size_singleton.
  assert (Hle : size (list_to_set l ∖ {[x]} : gset str)
                <= size (list_to_set l : gset str))
    by (apply subseteq_size, subseteq_difference_l; done).
  lia.
Qed.

Lemma index_append_keys (k0 : str) (f : Path.t)
    (idx : gmap str (list Path.t)) (k : str) :
  is_Some (index_append k0 f idx !! k) -> k = k0 \/ is_Some (idx !! k).
Proof.
  unfold index_append. destruct (decide (k0 = k)) as [->|Hne]; [by left|].
  rewrite lookup_insert_ne by done. by right.
Qed.

Lemma scan_into_keys (idx : gmap str (list Path.t)) (found : list Path.t)
    (k : str) :
  is_Some (scan_into idx found !! k) ->
  is_Some (idx !! k) \/ In k system_tags.
Proof.
  unfold scan_into. revert idx.
  induction found as [|f found IH]; intros idx; cbn [fold_left]; [by left|].
  intros [H|H]%IH; [|by right].
  destruct (is_rom_file f); [|by left].
  apply index_append_keys in H as [->|H]; [right|by left].
  apply detect_in_system_tags.
Qed.

Lemma scan_folder_keys (k0 : str) (files : list Path.t)
    (idx : gmap str (list Path.t)) (n : nat) (k : str) :
  is_Some (fst (scan_folder k0 files (idx, n)) !! k) ->
  k = k0 \/ is_Some (idx !! k).
Proof.
  unfold scan_folder. revert idx n.
  induction files as [|f files IH]; intros idx n; cbn [fold_left fst];
    [by right|].
  destruct (is_rom_file f); intros [H|H]%IH; try by left.
  - by apply index_append_keys in H.
  - by right.
Qed.

Lemma scan_output_from_keys (listing : list (str * list Path.t))
    (idx : gmap str (list Path.t)) (n : nat) (k : str) :
  is_Some (fst (scan_output_from (idx, n) listing) !! k) ->
  is_Some (idx !! k) \/ In k (map fst listing).
Proof.
  unfold scan_output_from. revert idx n.
  induction listing as [|[k0 files] listing IH]; intros idx n;
    cbn [fold_left map fst In]; [by left|].
  set (idx0 := match idx !! k0 with
               | Some _ => idx
               | None => <[k0:=[]]> idx
               end).
  pose proof (scan_folder_keys k0 files idx0 n k) as Hf.
  destruct (scan_folder k0 files (idx0, n)) as [idx1 n1].
  cbn [fst] in Hf.
  intros [H|H]%IH; [|by right; right].
  apply Hf in H as [->|H]; [by right; left|].
  unfold idx0 in H. destruct (idx !! k0) eqn:E0; [by left|].
  destruct (decide (k0 = k)) as [->|Hne]; [by right; left|].
  rewrite lookup_insert_ne in H by done. by left.
Qed.

(** X6.  The index [organize] builds from the two scans has at most
    sixteen keys plus one per folder of the output directory, however
    many files were scanned; [len(available_roms)], which [organize]
    prints as the number of ROM files found, is that number of keys. *)
Theorem index_size_bound (found : list Path.t)
    (listing : list (str * list Path.t)) :
  size (fst (scan_output_directory (scan_rom_directories found) listing))
  <= 16 + length listing.
Proof.
  change 16 with (length system_tags).
  set (idx := fst (scan_output_directory (scan_rom_directories found) listing)).
  assert (Hdom : dom idx
                 ⊆ (list_to_set system_tags : gset str)
                   ∪ list_to_set (map fst listing)).
  { intros k Hk%elem_of_dom. unfold idx in Hk.
    change (scan_output_directory (scan_rom_directories found) listing)
      with (scan_output_from (scan_rom_directories found, 0) listing) in Hk.
    apply scan_output_from_keys in Hk as [Hk|Hk].
    - change (scan_rom_directories found) with (scan_into ∅ found) in Hk.
      apply scan_into_keys in Hk as [Hk|Hk].
      + rewrite lookup_empty in Hk. by destruct Hk.
      + apply elem_of_union_l, elem_of_list_to_set, list_elem_of_In, Hk.
    - apply elem_of_union_r, elem_of_list_to_set, list_elem_of_In, Hk. }
  apply subseteq_size in Hdom. rewrite size_dom in Hdom.
  rewrite size_union_alt in Hdom.
  pose proof (size_list_to_set_le system_tags) as H1.
  pose proof (size_list_to_set_le (map fst listing)) as H2.
  rewrite length_map in H2.
  assert (Hle : size (list_to_set (map fst listing)
                      ∖ list_to_set system_tags : gset str)
                <= size (list_to_set (map fst listing) : gset str))
    by (apply subseteq_size, subseteq_difference_l; done).
  lia.
Qed.

(** ** More on the match engine *)

Lemma eligible_group (system : str) (idx : gmap str (list Path.t)) :
  eligible system idx
  = List.filter
      (fun rom_path => negb (other_system (muos_folder system) rom_path))
      (default [] (idx !! muos_folder system)).
Proof. unfold eligible. by rewrite candidates_of_muos. Qed.

(** X7.  [find_rom_for_game] reads one group of the index only, the
    one under the canonical tag of the entry's system: two indexes that
    agree on that group give the same result, and the result is [None]
    when the group is absent or empty. *)
Theorem find_reads_one_group (game_name system : str)
    (idx idx' : gmap str (list Path.t)) :
  (default [] (idx !! muos_folder system)
   = default [] (idx' !! muos_folder system) ->
   find_rom_for_game game_name system idx
   = find_rom_for_game game_name system idx')
  /\ (default [] (idx !! muos_folder system) = [] ->
      find_rom_for_game game_name system idx = None).
Proof.
  rewrite !find_rom_for_game_scored, !eligible_group. split.
  - by intros ->.
  - intros ->. cbn [List.filter]. by rewrite scored_pairs_nil.
Qed.


(** X8.  Over the index [organize] builds (the scan of the source
    directories, extended by the scan of the output directory), a file
    [find_rom_for_game] returns is one [is_rom_file] accepts, and it was
    met by the walk of the sources or sits in a listed output folder. *)
Theorem found_file_is_scanned_rom (found : list Path.t)
    (listing : list (str * list Path.t)) (game_name system : str)
    (r : Path.t) :
  find_rom_for_game game_name system
    (fst (scan_output_directory (scan_rom_directories found) listing))
  = Some r ->
  is_rom_file r = true
  /\ (In r found \/ exists e, In e listing /\ In r (snd e)).
Proof.
  intros H%find_rom_for_game_eligible%in_eligible. destruct H as [Hin _].
  destruct (scan_output_from_spec listing (scan_rom_directories found) 0)
    as (_ & Hg & _).
  change (scan_output_from (scan_rom_directories found, 0) listing)
    with (scan_output_directory (scan_rom_directories found) listing) in Hg.
  rewrite Hg in Hin. apply in_app_iff in Hin as [Hin|Hin].
  - pose proof (scan_into_group ∅ found (muos_folder system)) as Hs.
    change (scan_into ∅ found) with (scan_rom_directories found) in Hs.
    rewrite lookup_empty in Hs. cbn [default app] in Hs. rewrite Hs in Hin.
    apply filter_In in Hin as [Hin Hrom].
    apply andb_true_iff in Hrom as [? _]. split; [done|by left].
  - unfold listed_roms in Hin. apply filter_In in Hin as [Hin Hrom].
    split; [done|right]. apply in_concat in Hin as (fs & Hfs & Hr).
    apply in_map_iff in Hfs as (e & <- & He).
    apply filter_In in He as [He _]. eauto.
Qed.

Lemma found_file_is_scanned_rom_witness :
  is_rom_file Sample.chrono_rom = true
  /\ (In Sample.chrono_rom
        [Sample.zelda_zip; Sample.chrono_rom; Sample.sonic_rom]
      \/ exists e,
           In e [(lit "SFC", [Sample.mario_rom])] /\ In Sample.chrono_rom (snd e)).
Proof.
  apply (found_file_is_scanned_rom
           [Sample.zelda_zip; Sample.chrono_rom; Sample.sonic_rom]
           [(lit "SFC", [Sample.mario_rom])]
           (lit "Chrono Trigger") (lit "SNES") Sample.chrono_rom).
  vm_compute. reflexivity.
Defined.

Lemma find_in_source_scan (found : list Path.t)
    (game_name system : str) (r : Path.t) :
  find_rom_for_game game_name system (scan_rom_directories found) = Some r ->
  detect_system_from_path r = muos_folder system
  /\ is_rom_file r = true /\ In r found.
Proof.
  intros H%find_rom_for_game_eligible%in_eligible. destruct H as [Hin _].
  pose proof (scan_into_group ∅ found (muos_folder system)) as Hs.
  change (scan_into ∅ found) with (scan_rom_directories found) in Hs.
  rewrite lookup_empty in Hs. cbn [default app] in Hs. rewrite Hs in Hin.
  apply filter_In in Hin as [Hin Hrom].
  apply andb_true_iff in Hrom as [? Hd%eqs_true]. done.
Qed.

(** X9.  Over the index of the source scan alone, as in
    [save_report], a file [find_rom_for_game] returns is classified by
    [detect_system_from_path] as the canonical tag of the entry's system
    exactly (UNKNOWN is not possible, unless it is that tag); it is
    accepted by [is_rom_file] and was met by the walk. *)
Theorem source_scan_match_is_classified (found : list Path.t)
    (game_name system : str) (r : Path.t) :
  find_rom_for_game game_name system (scan_rom_directories found) = Some r ->
  detect_system_from_path r = muos_folder system
  /\ is_rom_file r = true /\ In r found.
Proof. apply find_in_source_scan. Qed.

Lemma source_scan_match_is_classified_witness :
  detect_system_from_path Sample.chrono_rom = muos_folder (lit "SNES")
  /\ is_rom_file Sample.chrono_rom = true
  /\ In Sample.chrono_rom
       [Sample.zelda_zip; Sample.chrono_rom; Sample.sonic_rom].
Proof.
  apply (source_scan_match_is_classified
           [Sample.zelda_zip; Sample.chrono_rom; Sample.sonic_rom]
           (lit "Chrono Trigger") (lit "SNES") Sample.chrono_rom).
  vm_compute. reflexivity.
Defined.

(** X10.  An entry whose canonical tag is not a tag of the
    classifier (NGP, WS and PSP of the table, or a label the table does
    not know) is never matched against the source scan alone: the result
    is [None] for every name and every set of files. *)
Theorem label_outside_vocabulary_never_matches (found : list Path.t)
    (game_name system : str) :
  ~ In (muos_folder system) system_tags ->
  find_rom_for_game game_name system (scan_rom_directories found) = None.
Proof.
  intros Hout.
  destruct (find_rom_for_game _ _ _) as [r|] eqn:E; [|done].
  apply find_in_source_scan in E as (Hd & _). destruct Hout.
  rewrite <- Hd. apply detect_in_system_tags.
Qed.

Lemma label_outside_vocabulary_never_matches_witness :
  find_rom_for_game (lit "Gunpey") (lit "WonderSwan")
    (scan_rom_directories
       [Path.of_str (lit "roms/WonderSwan/Gunpey.zip")])
  = None.
Proof.
  apply (label_outside_vocabulary_never_matches
           [Path.of_str (lit "roms/WonderSwan/Gunpey.zip")]
           (lit "Gunpey") (lit "WonderSwan")).
  not_in_text.
Defined.

Lemma match_score_le_1 (g r : str) : (match_score g r <= 1)%Q.
Proof.
  unfold match_score. cbv zeta. fold (words g) (words r).
  fold (overlap (words g) (words r)).
  destruct (eqs g r); [apply Qle_refl|].
  destruct (contains r g); [done|].
  destruct (contains g r); [done|].
  destruct (bool_decide (words g ≠ ∅)) eqn:Eg; cbn [andb]; [|done].
  apply bool_decide_eq_true in Eg.
  destruct (bool_decide (words r ≠ ∅)); [|done].
  destruct (bool_decide _); [|done].
  apply (overlap_bounds _ _ Eg).
Qed.

Lemma scan_scored_first_exact_pair l bm bs res :
  scan_scored l bm bs = Returned res -> (bs < 1)%Q ->
  exists l1 r s l2,
    l = l1 ++ (r, s) :: l2 /\ res = Some r /\ (1 <= s)%Q
    /\ forall p' s', In (p', s') l1 -> (s' < 1)%Q.
Proof.
  revert bm bs. induction l as [|[p s] l IH]; intros bm bs;
    cbn [scan_scored]; [done|].
  destruct (Qle_bool 1 s) eqn:E1.
  - apply Qle_bool_iff in E1. intros H Hbs.
    assert (Hlt : negb (Qle_bool s bs) = true).
    { apply negb_Qle_bool. by apply Qlt_le_trans with 1%Q. }
    rewrite Hlt in H. injection H as <-.
    exists [], p, s, l. split; [done|]. split; [done|]. split; [done|].
    by intros ? ? [].
  - apply Qle_bool_false in E1.
    destruct (negb (Qle_bool s bs)); intros H Hbs;
      [destruct (IH _ _ H E1) as (l1 & r & s0 & l2 & -> & -> & Hs0 & Hl1)
      |destruct (IH _ _ H Hbs) as (l1 & r & s0 & l2 & -> & -> & Hs0 & Hl1)];
      exists ((p, s) :: l1), r, s0, l2;
      (split; [done|]); (split; [done|]); (split; [done|]);
      intros p' s' [[= <- <-]|Hin]; done || by apply (Hl1 p').
Qed.

Lemma scan_scored_first_best l bm bs bm' bs' :
  scan_scored l bm bs = Running bm' bs' ->
  (bm' = bm /\ bs' = bs /\ forall p s, In (p, s) l -> (s <= bs)%Q)
  \/ exists l1 r l2,
       l = l1 ++ (r, bs') :: l2 /\ bm' = Some r /\ (bs < bs')%Q
       /\ (forall p s, In (p, s) l1 -> (s < bs')%Q)
       /\ (forall p s, In (p, s) l2 -> (s <= bs')%Q).
Proof.
  revert bm bs. induction l as [|[p s] l IH]; intros bm bs;
    cbn [scan_scored].
  - intros [= <- <-]. left. split; [done|]. split; [done|]. by intros ? ? [].
  - destruct (Qle_bool 1 s) eqn:E1;
      [by destruct (negb (Qle_bool s bs))|].
    destruct (negb (Qle_bool s bs)) eqn:E2; intros H.
    + apply negb_Qle_bool in E2. right.
      destruct (IH _ _ H) as [(-> & -> & Hall)|(l1 & r & l2 & -> & -> & Hlt & Hl1 & Hl2)].
      * exists [], p, l. split; [done|]. split; [done|]. split; [done|].
        split; [by intros ? ? []|done].
      * exists ((p, s) :: l1), r, l2. split; [done|]. split; [done|].
        split; [by apply Qlt_trans with s|]. split; [|done].
        intros p' s' [[= <- <-]|Hin]; [done|by apply (Hl1 p')].
    + apply negb_false_iff, Qle_bool_iff in E2.
      destruct (IH _ _ H) as [(-> & -> & Hall)|(l1 & r & l2 & -> & -> & Hlt & Hl1 & Hl2)].
      * left. split; [done|]. split; [done|].
        intros p' s' [[= <- <-]|Hin]; [done|by apply (Hall p')].
      * right. exists ((p, s) :: l1), r, l2. split; [done|]. split; [done|].
        split; [done|]. split; [|done].
        intros p' s' [[= <- <-]|Hin]; [|by apply (Hl1 p')].
        by apply Qle_lt_trans with bs.
Qed.

(** X11.  When [find_rom_for_game] returns a file, the file is the
    first of the (variant, eligible file) pairs, in the order of the two
    loops, to reach the highest score: every pair before it scores
    strictly less, no pair after it scores more, and its score is at
    least 0.5.  Ties go to the earlier pair. *)
Theorem first_best_pair_wins (game_name system : str)
    (available_roms : gmap str (list Path.t)) (r : Path.t) :
  find_rom_for_game game_name system available_roms = Some r ->
  exists l1 s l2,
    scored_pairs (game_variants game_name) (eligible system available_roms)
    = l1 ++ (r, s) :: l2
    /\ (forall p' s', In (p', s') l1 -> (s' < s)%Q)
    /\ (forall p' s', In (p', s') l2 -> (s' <= s)%Q)
    /\ (1 # 2 <= s)%Q.
Proof.
  rewrite find_rom_for_game_scored.
  destruct (scan_scored _ _ _) as [res|bm bs] eqn:E; cbn [result_of].
  - intros ->.
    apply scan_scored_first_exact_pair in E
      as (l1 & r' & s & l2 & Hl & [= <-] & Hs & Hl1); [|done].
    exists l1, s, l2. split; [done|]. split; [|split].
    + intros p' s' Hin. apply Qlt_le_trans with 1%Q; [by apply (Hl1 p')|done].
    + intros p' s' Hin. apply Qle_trans with 1%Q; [|done].
      assert (Hin' : In (p', s')
                (scored_pairs (game_variants game_name)
                   (eligible system available_roms)))
        by (rewrite Hl; apply in_app_iff; right; by right).
      apply in_scored_pairs in Hin' as (v & _ & _ & ->).
      apply match_score_le_1.
    + by apply Qle_trans with 1%Q.
  - destruct bm as [p|]; [|done].
    destruct (Qle_bool (1 # 2) bs) eqn:Eb; [|done]. intros [= ->].
    apply Qle_bool_iff in Eb.
    apply scan_scored_first_best in E
      as [(? & _)|(l1 & r' & l2 & Hl & [= <-] & _ & Hl1 & Hl2)]; [done|].
    exists l1, bs, l2. done.
Qed.

Lemma first_best_pair_wins_witness :
  exists l1 s l2,
    scored_pairs (game_variants (lit "Chrono"))
      (eligible (lit "SNES") Sample.library)
    = l1 ++ (Sample.chrono_rom, s) :: l2
    /\ (forall p' s', In (p', s') l1 -> (s' < s)%Q)
    /\ (forall p' s', In (p', s') l2 -> (s' <= s)%Q)
    /\ (1 # 2 <= s)%Q.
Proof.
  apply (first_best_pair_wins (lit "Chrono") (lit "SNES") Sample.library
           Sample.chrono_rom).
  vm_compute. reflexivity.
Defined.

(** X12.  When some title variant of the entry and the stem of some
    eligible file have the same normalised name, [find_rom_for_game]
    returns a file, and that file scores 1 against one of the variants:
    an exact match is never passed over for a partial one. *)
Theorem exact_match_short_circuit (game_name system : str)
    (available_roms : gmap str (list Path.t)) (v : str) (c : Path.t) :
  In v (game_variants game_name) ->
  In c (eligible system available_roms) ->
  normalize_name v = normalize_name (Path.stem c) ->
  exists r v',
    find_rom_for_game game_name system available_roms = Some r
    /\ In v' (game_variants game_name)
    /\ In r (eligible system available_roms)
    /\ (pair_score v' r == 1)%Q.
Proof.
  intros Hv Hc Heq.
  assert (Hone : pair_score v c = 1%Q).
  { unfold pair_score, match_score. rewrite Heq.
    by rewrite (proj2 (eqs_true _ _) eq_refl). }
  assert (Hin : In (c, 1%Q)
            (scored_pairs (game_variants game_name)
               (eligible system available_roms)))
    by (apply in_scored_pairs; eauto).
  rewrite find_rom_for_game_scored.
  destruct (scan_scored _ _ _) as [res|bm bs] eqn:E; cbn [result_of].
  - apply scan_scored_first_exact_pair in E
      as (l1 & r & s & l2 & Hl & -> & Hs & _); [|done].
    assert (Hr : In (r, s)
              (scored_pairs (game_variants game_name)
                 (eligible system available_roms)))
      by (rewrite Hl; apply in_app_iff; right; by left).
    apply in_scored_pairs in Hr as (v' & Hv' & Hr & ->).
    exists r, v'. split; [done|]. split; [done|]. split; [done|].
    apply Qle_antisym; [apply match_score_le_1|done].
  - apply scan_scored_running in E as (_ & Hall & _).
    destruct (Hall c 1%Q Hin) as [_ Hlt]. by apply Qlt_irrefl in Hlt.
Qed.

Lemma exact_match_short_circuit_witness :
  exists r v',
    find_rom_for_game (lit "Chrono Trigger") (lit "SNES") Sample.library
    = Some r
    /\ In v' (game_variants (lit "Chrono Trigger"))
    /\ In r (eligible (lit "SNES") Sample.library)
    /\ (pair_score v' r == 1)%Q.
Proof.
  apply (exact_match_short_circuit (lit "Chrono Trigger") (lit "SNES")
           Sample.library (lit "Chrono Trigger") Sample.chrono_rom).
  - vm_compute. left. reflexivity.
  - vm_compute. left. reflexivity.
  - vm_compute. reflexivity.
Defined.

(** ** More on the name normaliser *)


Section TagsLower.

Variables op cl : ascii.
Hypothesis Hop : bracket op = true.
Hypothesis Hcl : bracket cl = true.



End TagsLower.







(** *** Tags *)

Section TagsPrefix.

Variables op cl : ascii.

Lemma re_sub_tag_prefix (x y : str) :
  ~ In op x -> re_sub_tag op cl (x ++ y) = x ++ re_sub_tag op cl y.
Proof.
  induction x as [|c x IH]; [done|]. intros Hx.
  change ((c :: x) ++ y) with (c :: (x ++ y)). rewrite re_sub_tag_cons.
  destruct (eqc c op) eqn:E.
  - apply eqc_true in E as ->. destruct Hx. by left.
  - cbn [app]. f_equal. apply IH. intros ?. apply Hx. by right.
Qed.

Lemma skip_tag_first (t b : str) :
  ~ In cl t -> ~ In newline t -> skip_tag cl (t ++ cl :: b) = Some b.
Proof.
  induction t as [|d t IH]; intros Hc Hn; cbn [app skip_tag].
  - by rewrite eqc_refl.
  - destruct (eqc d cl) eqn:E.
    { apply eqc_true in E as ->. destruct Hc. by left. }
    destruct (eqc d newline) eqn:En.
    { apply eqc_true in En as ->. destruct Hn. by left. }
    apply IH; intros ?; [apply Hc|apply Hn]; by right.
Qed.

Lemma re_sub_tag_tag (t b : str) :
  ~ In cl t -> ~ In newline t ->
  re_sub_tag op cl (op :: t ++ cl :: b) = re_sub_tag op cl b.
Proof.
  intros Hc Hn. by rewrite re_sub_tag_cons, eqc_refl, skip_tag_first.
Qed.

End TagsPrefix.

Lemma brackets_nil_not_in (s : str) (c : ascii) :
  brackets s = [] -> bracket c = true -> ~ In c s.
Proof.
  intros Hs Hc Hin. assert (H : In c (brackets s)).
  { apply filter_In. done. }
  by rewrite Hs in H.
Qed.

(** X14.  [normalize_name] ignores a bracketed tag: for each of the
    three bracket pairs, when the text before the tag and the text inside
    it hold no bracket and the tag holds no line feed, the name with the
    tag and the name without it have the same normalised name, whatever
    follows the tag. *)
Theorem bracketed_tag_is_ignored (op cl : ascii) (a t b : str) :
  In (op, cl)
    [("["%char, "]"%char); ("("%char, ")"%char); ("{"%char, "}"%char)] ->
  brackets a = [] -> brackets t = [] -> ~ In newline t ->
  normalize_name (a ++ op :: t ++ cl :: b) = normalize_name (a ++ b).
Proof.
  intros Hpair Ha Ht Hn.
  assert (Hna : forall c, bracket c = true -> ~ In c a)
    by (intros c; by apply brackets_nil_not_in).
  assert (Hnt : forall c, bracket c = true -> ~ In c t)
    by (intros c; by apply brackets_nil_not_in).
  assert (Hpre : forall c o k : ascii,
             bracket c = true -> c <> o -> c <> k ->
             ~ In c (a ++ o :: t ++ [k])).
  { intros c o k Hc Ho Hk [Hin|[Hin|[Hin|[Hin|[]]]%in_app_iff]]%in_app_iff.
    - by apply (Hna c).
    - done.
    - by apply (Hnt c).
    - done. }
  unfold normalize_name. cbv zeta. do 5 f_equal.
  unfold remove_tags. cbv zeta.
  rewrite (re_sub_tag_prefix "[" "]" a b) by (by apply Hna).
  rewrite (re_sub_tag_prefix "(" ")" a) by (by apply Hna).
  rewrite (re_sub_tag_prefix "{" "}" a) by (by apply Hna).
  cbn [In] in Hpair.
  destruct Hpair as [[= <- <-]|[[= <- <-]|[[= <- <-]|[]]]].
  - rewrite (re_sub_tag_prefix "[" "]" a) by (by apply Hna).
    rewrite re_sub_tag_tag by (done || by apply Hnt).
    rewrite (re_sub_tag_prefix "(" ")" a) by (by apply Hna).
    by rewrite (re_sub_tag_prefix "{" "}" a) by (by apply Hna).
  - replace (a ++ "("%char :: t ++ ")"%char :: b)
      with ((a ++ "("%char :: t ++ [")"%char]) ++ b)
      by (by rewrite <- !app_assoc; cbn [app]; rewrite <- app_assoc).
    rewrite (re_sub_tag_prefix "[" "]") by (by apply Hpre).
    replace ((a ++ "("%char :: t ++ [")"%char]) ++ re_sub_tag "[" "]" b)
      with (a ++ "("%char :: t ++ ")"%char :: re_sub_tag "[" "]" b)
      by (by rewrite <- !app_assoc; cbn [app]; rewrite <- app_assoc).
    rewrite (re_sub_tag_prefix "(" ")" a) by (by apply Hna).
    rewrite re_sub_tag_tag by (done || by apply Hnt).
    by rewrite (re_sub_tag_prefix "{" "}" a) by (by apply Hna).
  - replace (a ++ "{"%char :: t ++ "}"%char :: b)
      with ((a ++ "{"%char :: t ++ ["}"%char]) ++ b)
      by (by rewrite <- !app_assoc; cbn [app]; rewrite <- app_assoc).
    rewrite (re_sub_tag_prefix "[" "]") by (by apply Hpre).
    rewrite (re_sub_tag_prefix "(" ")") by (by apply Hpre).
    replace ((a ++ "{"%char :: t ++ ["}"%char])
             ++ re_sub_tag "(" ")" (re_sub_tag "[" "]" b))
      with (a ++ "{"%char :: t ++ "}"%char
              :: re_sub_tag "(" ")" (re_sub_tag "[" "]" b))
      by (by rewrite <- !app_assoc; cbn [app]; rewrite <- app_assoc).
    rewrite (re_sub_tag_prefix "{" "}" a) by (by apply Hna).
    by rewrite re_sub_tag_tag by (done || by apply Hnt).
Qed.

Lemma bracketed_tag_is_ignored_witness :
  normalize_name
    (lit "Chrono Trigger " ++ "("%char :: lit "USA" ++ ")"%char :: lit " [!]")
  = normalize_name (lit "Chrono Trigger " ++ lit " [!]").
Proof.
  apply (bracketed_tag_is_ignored "(" ")" (lit "Chrono Trigger ") (lit "USA")
           (lit " [!]")).
  - right. left. reflexivity.
  - reflexivity.
  - reflexivity.
  - not_in_text.
Defined.

(** ** More on the match scorer *)

Lemma ratio_one (n m : nat) :
  0 < m ->
  (inject_Z (Z.of_nat n) / inject_Z (Z.of_nat m) == 1)%Q -> n = m.
Proof.
  intros Hm H.
  assert (Hne : ~ (inject_Z (Z.of_nat m) == 0)%Q).
  { change 0%Q with (inject_Z 0). rewrite inject_Z_injective. lia. }
  assert (H' : (inject_Z (Z.of_nat n) == inject_Z (Z.of_nat m))%Q).
  { rewrite <- (Qmult_1_l (inject_Z (Z.of_nat m))), <- H.
    rewrite Qmult_comm, Qmult_div_r; [reflexivity|done]. }
  rewrite inject_Z_injective in H'. lia.
Qed.

Lemma same_size_same_set (a b : gset str) :
  size (a ∩ b) = Nat.max (size a) (size b) -> a = b.
Proof.
  intros H.
  pose proof (Nat.le_max_l (size a) (size b)) as Hl.
  pose proof (Nat.le_max_r (size a) (size b)) as Hr.
  rewrite <- H in Hl, Hr.
  assert (Ha : a ∩ b = a)
    by (apply set_subseteq_size_eq; [apply intersection_subseteq_l|done]).
  assert (Hb : a ∩ b = b)
    by (apply set_subseteq_size_eq; [apply intersection_subseteq_r|done]).
  by rewrite <- Ha at 1.
Qed.

(** X15.  A score of 1 means the same words: when the score block
    gives 1 for two normalised names, the two names have the same set of
    words (they are equal, or the overlap rule found every word of each in
    the other). *)
Theorem perfect_score_same_words (game_normalized rom_normalized : str) :
  (match_score game_normalized rom_normalized == 1)%Q ->
  words game_normalized = words rom_normalized.
Proof.
  unfold match_score. cbv zeta.
  fold (words game_normalized) (words rom_normalized).
  destruct (eqs game_normalized rom_normalized) eqn:E.
  { apply eqs_true in E as ->. done. }
  destruct (contains rom_normalized game_normalized); [discriminate|].
  destruct (contains game_normalized rom_normalized); [discriminate|].
  destruct (bool_decide (words game_normalized ≠ ∅)) eqn:Eg; cbn [andb];
    [|discriminate].
  apply bool_decide_eq_true in Eg.
  destruct (bool_decide (words rom_normalized ≠ ∅)); [|discriminate].
  destruct (bool_decide _); [|discriminate].
  intros H%ratio_one; [by apply same_size_same_set|].
  assert (size (words game_normalized) ≠ 0); [|lia].
  intros H0. apply Eg, leibniz_equiv. by apply size_empty_inv.
Qed.

Lemma perfect_score_same_words_witness :
  words (lit "mario kart") = words (lit "kart mario").
Proof.
  apply (perfect_score_same_words (lit "mario kart") (lit "kart mario")).
  vm_compute. reflexivity.
Defined.

(** ** More on the batch *)

(** What one successful [process_game] does to the world. *)
Lemma process_game_ok (g : game) (available_roms : gmap str (list Path.t))
    (dir : Path.t) (w w' : world) :
  process_game g available_roms dir w = inr w' ->
  dirs w ⊆ dirs w'
  /\ Path.div dir (muos_folder (system g)) ∈ dirs w'
  /\ length (printed w') = S (length (printed w))
  /\ match find_rom_for_game (name g) (system g) available_roms with
     | Some _ => found w' = S (found w) /\ missing w' = missing w
     | None => found w' = found w /\ missing w' = S (missing w)
     end.
Proof.
  unfold process_game, mkdir_exist_ok. cbv zeta.
  generalize (find_rom_for_game (name g) (system g) available_roms) as res.
  generalize (Path.div dir (muos_folder (system g))) as p.
  intros p res.
  destruct (bool_decide (p ∈ dirs w)) eqn:E1;
    [apply bool_decide_eq_true in E1|
     destruct (bool_decide (Path.parent p ∈ dirs w)) eqn:E2; [|intros [=]]];
    (destruct res as [r|]; [destruct (bool_decide (Path.parent r = p))|]);
    intros [= <-]; cbn [dirs found missing printed count_found count_missing];
    rewrite length_app; cbn [length];
    (split; [set_solver|]); (split; [set_solver|]); (split; [lia|done]).
Qed.

Lemma process_games_ok (games : list game)
    (available_roms : gmap str (list Path.t)) (dir : Path.t)
    (w w' : world) :
  process_games games available_roms dir w = inr w' ->
  dirs w ⊆ dirs w'
  /\ Forall (fun g => Path.div dir (muos_folder (system g)) ∈ dirs w') games
  /\ length (printed w') = length (printed w) + length games
  /\ missing w'
     = missing w + length (List.filter (is_missing available_roms) games)
  /\ found w' + missing w' = found w + missing w + length games.
Proof.
  revert w. induction games as [|g games IH]; intros w;
    cbn [process_games List.filter length].
  - intros [= <-]. split; [done|]. split; [done|]. lia.
  - destruct (process_game g available_roms dir w) as [e0|w0] eqn:Eg; [done|].
    intros (Hd & Hall & Hp & Hm & Hf)%IH.
    apply process_game_ok in Eg as (Hd0 & Hin0 & Hp0 & Hc0).
    split; [by etrans|]. split; [constructor; [by apply Hd|done]|].
    split; [lia|]. unfold is_missing at 1.
    destruct (find_rom_for_game _ _ _); destruct Hc0 as [Hf0 Hm0];
      cbn [length]; lia.
Qed.

(** X16.  When the loop of [organize] ends without an exception,
    every game was counted once, as found or as missing, one line was
    printed per game, no directory was removed, and the system folder of
    every game exists. *)
Theorem batch_accounting (games : list game)
    (available_roms : gmap str (list Path.t)) (dir : Path.t)
    (w w' : world) :
  process_games games available_roms dir w = inr w' ->
  found w' + missing w' = found w + missing w + length games
  /\ length (printed w') = length (printed w) + length games
  /\ dirs w ⊆ dirs w'
  /\ Forall (fun g => Path.div dir (muos_folder (system g)) ∈ dirs w') games.
Proof. intros (? & ? & ? & ? & ?)%process_games_ok. done. Qed.

Lemma batch_accounting_witness :
  found Runs.chrono_processed + missing Runs.chrono_processed
  = found Sample.fresh_output + missing Sample.fresh_output
    + length [Sample.chrono]
  /\ length (printed Runs.chrono_processed)
     = length (printed Sample.fresh_output) + length [Sample.chrono]
  /\ dirs Sample.fresh_output ⊆ dirs Runs.chrono_processed
  /\ Forall
       (fun g =>
          Path.div Sample.roms_dir (muos_folder (system g))
          ∈ dirs Runs.chrono_processed)
       [Sample.chrono].
Proof.
  apply (batch_accounting [Sample.chrono] Sample.library Sample.roms_dir
           Sample.fresh_output Runs.chrono_processed).
  vm_cast_no_check (eq_refl (@inr exn world Runs.chrono_processed)).
Defined.






(** ** The game list *)

Lemma get_present (r : Csv.row) (key : str) (v default : option str) :
  r !! key = Some v -> Csv.get r key default = v.
Proof. unfold Csv.get. by intros ->. Qed.

(** X19.  [read_csv] keeps the rows in order and invents none; every
    game it returns has a name and a system that are not empty; and a row
    whose column Game Name is present with an empty field (or no field) is
    dropped, whatever its columns Game, Name and name hold. *)
Theorem read_rows_entries (rows : list Csv.row) :
  Csv.read_rows rows `sublist_of` map Csv.game_of_row rows
  /\ Forall
       (fun g =>
          exists n s,
            Csv.name g = Some n /\ n <> []
            /\ Csv.system g = Some s /\ s <> [])
       (Csv.read_rows rows)
  /\ forall r v,
       r !! lit "Game Name" = Some v -> Csv.truthy v = false ->
       ~ In (Csv.game_of_row r) (Csv.read_rows rows).
Proof.
  split; [apply list_filter_sublist|]. split.
  - apply Forall_forall. intros g Hg%list_elem_of_In.
    apply filter_In in Hg as [_ Hg]. apply andb_true_iff in Hg as [Hn Hs].
    destruct (Csv.name g) as [[|c n]|]; try done.
    destruct (Csv.system g) as [[|d s]|]; try done.
    by exists (c :: n), (d :: s).
  - intros r v Hr Hv Hin. apply filter_In in Hin as [_ Hin].
    apply andb_true_iff in Hin as [Hn _]. unfold Csv.game_of_row in Hn.
    cbn [Csv.name] in Hn. rewrite (get_present r _ v) in Hn by done.
    by rewrite Hv in Hn.
Qed.
